(** * A command event loop: queue, worker loop and command dispatch

    Shallow embedding of [main.go]: the commands queue with its
    "Stop goes last" splice, the event loop with its worker goroutine, the
    three command variants and the line parser, followed by the properties
    of the design that hold of the code and the ones that do not. *)

From Stdlib Require Import ZArith Ascii String DecimalString DecimalPos Lia.
From stdpp Require Import base tactics option list strings.

Local Open Scope string_scope.
Local Open Scope list_scope.
Local Open Scope Z_scope.

(** ** Commands

    A [Command] value of the program is a non-nil pointer to one of the three
    command structs ([&stopCommand{}], [&printCommand{..}],
    [&addCommand{..}]); the nil interface value only appears as the sentinel
    returned by [peek] and by [parse], where it is modelled by [None]. *)

Inductive Command : Type :=
  | stopCommand
  | printCommand (arg : string)
  | addCommand (arg1 arg2 : Z).

#[global] Instance Command_eq_dec : EqDecision Command.
Proof. solve_decision. Defined.

(** The type assertion of [push]: is the value a non-nil pointer to a
    [stopCommand]? *)
Definition isStop (cmd : Command) : bool :=
  match cmd with
  | stopCommand => true
  | _ => false
  end.

(** ** commandsQueue

    The slice [q.queue]; the mutex makes each of [push] and [pull] one atomic
    step, which is how the event loop below uses them. *)

Abbreviation commandsQueue := (list Command).

(** [pull]: [q.queue[0]] panics with an index out of range on an empty slice,
    which is the [None] result. *)
Definition pull (q : commandsQueue) : option (Command * commandsQueue) :=
  match q !! 0%nat with
  | None => None
  | Some cmd => Some (cmd, drop 1 q)
  end.

(** [peek]: the last element, or nil on an empty queue. *)
Definition peek (q : commandsQueue) : option Command :=
  if decide (length q = 0%nat) then None
  else q !! (length q - 1)%nat.

(** [push]: when the last element is a Stop command the slot it occupies is
    overwritten with [cmd] and the Stop command is appended again. *)
Definition push (q : commandsQueue) (cmd : Command) : commandsQueue :=
  match peek q with
  | Some last =>
      if isStop last
      then <[(length q - 1)%nat := cmd]> q ++ [last]
      else q ++ [cmd]
  | None => q ++ [cmd]
  end.

(** Number of Stop commands waiting in a queue. *)
Definition countStop (q : commandsQueue) : nat :=
  length (filter (λ c, isStop c = true) q).

(** The invariant of the design: at most one Stop command, and it is the
    final element when there is one. *)
Definition StopLast (q : commandsQueue) : Prop :=
  (countStop q ≤ 1)%nat ∧ ((0 < countStop q)%nat → peek q = Some stopCommand).

(** ** Handler and EventLoop *)

(** The [Handler] interface handed to [Execute]. *)
Class Handler (H : Type) : Type := {
  handler_Post : Command → H → H;
  handler_Stop : H → H
}.

(** [stopSignal] is an unbuffered channel; its field counts the values that
    have been handed over through it. *)
Record EventLoop : Type := mkEventLoop {
  queue : commandsQueue;
  stopSignal : nat;
  isStopped : bool
}.

Definition NewEventLoop : EventLoop :=
  {| queue := []; stopSignal := 0; isStopped := false |}.

Definition Stop (l : EventLoop) : EventLoop :=
  {| queue := queue l; stopSignal := stopSignal l; isStopped := true |}.

Definition Post (cmd : Command) (l : EventLoop) : EventLoop :=
  {| queue := push (queue l) cmd;
     stopSignal := stopSignal l;
     isStopped := isStopped l |}.

#[global] Instance EventLoop_Handler : Handler EventLoop :=
  {| handler_Post := Post; handler_Stop := Stop |}.

(** A handler that only records what is posted to it, used to name the
    commands an execution posts. *)
#[global] Instance Recorder_Handler : Handler (list Command) :=
  {| handler_Post := λ cmd posted, posted ++ [cmd]; handler_Stop := λ posted, posted |}.

(** ** Machine integers and their decimal text *)

(** Two's complement reduction to [w] bits. *)
Definition wrap (w : Z) (z : Z) : Z :=
  (z + 2 ^ (w - 1)) mod 2 ^ w - 2 ^ (w - 1).

(** [strconv.Itoa]. *)
Definition Itoa (z : Z) : string :=
  NilZero.string_of_int (Z.to_int z).

Inductive NumError : Type := ErrSyntax | ErrRange.

Definition digit (c : ascii) : option Z :=
  let n := Z.of_N (N_of_ascii c) in
  if (48 <=? n) && (n <=? 57) then Some (n - 48) else None.

(** The digit loop of [strconv.ParseUint] in base 10: the first character
    that is no digit is a syntax error, a value above [maxVal] a range error
    that stops the loop. *)
Fixpoint parseDigits (maxVal : Z) (s : string) (n : Z) : Z * option NumError :=
  match s with
  | EmptyString => (n, None)
  | String c s' =>
      match digit c with
      | None => (0, Some ErrSyntax)
      | Some d =>
          let n1 := n * 10 + d in
          if maxVal <? n1 then (maxVal, Some ErrRange)
          else parseDigits maxVal s' n1
      end
  end.

Definition ParseUint (bitSize : Z) (s : string) : Z * option NumError :=
  match s with
  | EmptyString => (0, Some ErrSyntax)
  | _ => parseDigits (2 ^ bitSize - 1) s 0
  end.

(** [strconv.Atoi] on a platform whose [int] has [intSize] bits: an optional
    sign, then decimal digits; 0 on a syntax error, the nearest bound on a
    range error. *)
Definition Atoi (intSize : Z) (s : string) : Z * option NumError :=
  match s with
  | EmptyString => (0, Some ErrSyntax)
  | String c s' =>
      let neg := Ascii.eqb c "-" in
      let body := if Ascii.eqb c "+" || neg then s' else s in
      match ParseUint intSize body with
      | (_, Some ErrSyntax) => (0, Some ErrSyntax)
      | (un, _) =>
          let cutoff := 2 ^ (intSize - 1) in
          if negb neg && (cutoff <=? un) then (cutoff - 1, Some ErrRange)
          else if neg && (cutoff <? un) then (- cutoff, Some ErrRange)
          else (if neg then - un else un, None)
      end
  end.

(** ** Command variants *)

Section Dispatch.
Context (intSize : Z).

(** [Execute]: one case per variant's method. [fmt.Println] appends a line
    to the standard output, which is the second component. *)
Definition Execute {H : Type} `{Handler H}
    (cmd : Command) (handler : H) (stdout : list string) : H * list string :=
  match cmd with
  | stopCommand => (handler_Stop handler, stdout)
  | printCommand arg => (handler, stdout ++ [arg])
  | addCommand arg1 arg2 =>
      let res := wrap intSize (arg1 + arg2) in
      (handler_Post (printCommand (Itoa res)) handler, stdout)
  end.

(** The commands that executing [cmd] posts, in order. *)
Definition postsOf (cmd : Command) : list Command :=
  fst (Execute cmd ([] : list Command) []).
End Dispatch.

(** ** The parser *)

(** Running a function that indexes a slice either returns or panics. *)
Inductive Outcome (A : Type) : Type :=
  | Returns (a : A)
  | Panics.
Arguments Returns {A} a.
Arguments Panics {A}.

(** The value of a byte of a string. *)
Definition byte (c : ascii) : Z := Z.of_N (N_of_ascii c).

(** [utf8.RuneError], the rune U+FFFD. *)
Definition RuneError : Z := 65533.

(** The tables [first] and [acceptRanges] of package [utf8] for a byte above
    the ASCII range: the size of the encoding it starts and the range its
    second byte has to be in; [None] for a byte that starts no encoding. *)
Definition leading (s0 : Z) : option (Z * Z * Z) :=
  if s0 <? 194 then None
  else if s0 <? 224 then Some (2, 128, 191)
  else if s0 =? 224 then Some (3, 160, 191)
  else if s0 <? 237 then Some (3, 128, 191)
  else if s0 =? 237 then Some (3, 128, 159)
  else if s0 <? 240 then Some (3, 128, 191)
  else if s0 =? 240 then Some (4, 144, 191)
  else if s0 <? 244 then Some (4, 128, 191)
  else if s0 =? 244 then Some (4, 128, 143)
  else None.

(** A byte outside [lo, hi]. *)
Definition outside (lo hi b : Z) : bool := (b <? lo) || (hi <? b).

(** [utf8.DecodeRuneInString], which is also how [range] walks a string: the
    first rune of the string and the number of bytes it takes; an encoding
    that is not valid gives [RuneError] and the width 1. *)
Definition DecodeRuneInString (s : string) : Z * nat :=
  match s with
  | EmptyString => (RuneError, 0%nat)
  | String c0 rest0 =>
      let s0 := byte c0 in
      if s0 <? 128 then (s0, 1%nat)
      else
        match leading s0, rest0 with
        | Some (sz, lo, hi), String c1 rest1 =>
            let s1 := byte c1 in
            if outside lo hi s1 then (RuneError, 1%nat)
            else if sz =? 2
            then (Z.lor (Z.shiftl (Z.land s0 31) 6) (Z.land s1 63), 2%nat)
            else
              match rest1 with
              | String c2 rest2 =>
                  let s2 := byte c2 in
                  if outside 128 191 s2 then (RuneError, 1%nat)
                  else if sz =? 3
                  then (Z.lor (Z.shiftl (Z.land s0 15) 12)
                          (Z.lor (Z.shiftl (Z.land s1 63) 6) (Z.land s2 63)),
                        3%nat)
                  else
                    match rest2 with
                    | String c3 _ =>
                        let s3 := byte c3 in
                        if outside 128 191 s3 then (RuneError, 1%nat)
                        else (Z.lor (Z.shiftl (Z.land s0 7) 18)
                                (Z.lor (Z.shiftl (Z.land s1 63) 12)
                                   (Z.lor (Z.shiftl (Z.land s2 63) 6)
                                      (Z.land s3 63))),
                              4%nat)
                    | EmptyString => (RuneError, 1%nat)
                    end
              | EmptyString => (RuneError, 1%nat)
              end
        | _, _ => (RuneError, 1%nat)
        end
  end.

(** [unicode.IsSpace]: the white space of Latin-1 and, above it, the table
    [White_Space]. *)
Definition IsSpace (r : Z) : bool :=
  ((9 <=? r) && (r <=? 13)) || (r =? 32) || (r =? 133) || (r =? 160) ||
  (r =? 5760) || ((8192 <=? r) && (r <=? 8202)) ||
  (r =? 8232) || (r =? 8233) || (r =? 8239) || (r =? 8287) || (r =? 12288).

Definition isEmpty (s : string) : bool :=
  match s with EmptyString => true | _ => false end.

(** The loop of [strings.FieldsFunc] over the runes of the string, with
    [unicode.IsSpace]: [skip] counts the bytes left of the rune that has
    started, and [field] holds the bytes of the field that is open (none is
    open when it is empty). *)
Fixpoint fieldsFrom (s : string) (skip : nat) (field : string) : list string :=
  match s with
  | EmptyString => if isEmpty field then [] else [field]
  | String c s' =>
      match skip with
      | S skip' =>
          fieldsFrom s' skip'
            (if isEmpty field then field else field +:+ String c EmptyString)
      | O =>
          let (r, width) := DecodeRuneInString s in
          if IsSpace r
          then (if isEmpty field then fieldsFrom s' (width - 1) EmptyString
                else field :: fieldsFrom s' (width - 1) EmptyString)
          else fieldsFrom s' (width - 1) (field +:+ String c EmptyString)
      end
  end.

(** [strings.Fields]: the maximal runs of runes that are not white space.
    On a string of ASCII bytes every rune is one byte, which is the fast
    path of the library. *)
Definition Fields (line : string) : list string :=
  fieldsFrom line 0 EmptyString.

(** [parse]: [parts[0]], [args[0]] and [args[1]] panic when the line has too
    few fields; the errors of [Atoi] are dropped. The nil command is [None]. *)
Definition parse (intSize : Z) (line : string) : Outcome (option Command) :=
  match Fields line with
  | [] => Panics
  | command :: args =>
      if String.eqb command "print" then
        match args with
        | [] => Panics
        | a :: _ => Returns (Some (printCommand a))
        end
      else if String.eqb command "add" then
        match args with
        | a1 :: a2 :: _ =>
            Returns (Some (addCommand (fst (Atoi intSize a1)) (fst (Atoi intSize a2))))
        | _ => Panics
        end
      else Returns None
  end.

(** The loop of [main] over the lines of the input: the commands it posts,
    in order, unless a line makes [parse] panic. *)
Fixpoint scriptOf (intSize : Z) (lines : list string) : Outcome (list Command) :=
  match lines with
  | [] => Returns []
  | line :: rest =>
      match parse intSize line with
      | Panics => Panics
      | Returns cmd =>
          match scriptOf intSize rest with
          | Panics => Panics
          | Returns cmds => Returns (option_list cmd ++ cmds)
          end
      end
  end.

(** ** The running program

    Two threads share the event loop: the driver ([main] after [Start]), which
    posts its commands and then calls [AwaitFinish], and the worker goroutine
    of [Start]. Every access to the shared loop is one step of its thread, and
    a schedule interleaves the steps in any order. *)

Inductive Thread : Type := Driver | Worker.

(** Where the worker goroutine stands in
    [for !l.isStopped { if len(..) == 0 { continue }; cmd := pull(); cmd.Execute(l) }]
    and the send that follows the loop. *)
Inductive WorkerPC : Type :=
  | AtLoopTest
  | AtEmptyTest
  | AtPull
  | AtExecute (cmd : Command)
  | AtSend
  | WorkerDone
  | WorkerPanicked.

(** Where the driver stands: commands left to post before [AwaitFinish],
    blocked in the receive of [AwaitFinish], or back from it. *)
Inductive DriverPC : Type :=
  | Posting (rest : list Command)
  | AtReceive
  | Returned.

#[global] Instance WorkerPC_eq_dec : EqDecision WorkerPC.
Proof. solve_decision. Defined.
#[global] Instance DriverPC_eq_dec : EqDecision DriverPC.
Proof. solve_decision. Defined.
#[global] Instance EventLoop_eq_dec : EqDecision EventLoop.
Proof. solve_decision. Defined.

(** [executed] and [posted] are logs: the commands whose [Execute] has run
    and the commands handed to [push], each in the order it happened. *)
Record System : Type := mkSystem {
  loop : EventLoop;
  stdout : list string;
  worker : WorkerPC;
  driver : DriverPC;
  executed : list Command;
  posted : list Command
}.

#[global] Instance System_eq_dec : EqDecision System.
Proof. solve_decision. Defined.

(** [NewEventLoop] and [Start] have run; [script] is what the driver posts. *)
Definition boot (script : list Command) : System :=
  {| loop := NewEventLoop; stdout := []; worker := AtLoopTest;
     driver := Posting script; executed := []; posted := [] |}.

(** The send on [stopSignal] meets the receive of [AwaitFinish]. *)
Definition handover (s : System) : option System :=
  match worker s, driver s with
  | AtSend, AtReceive =>
      Some {| loop := {| queue := queue (loop s);
                         stopSignal := S (stopSignal (loop s));
                         isStopped := isStopped (loop s) |};
              stdout := stdout s; worker := WorkerDone; driver := Returned;
              executed := executed s; posted := posted s |}
  | _, _ => None
  end.

Section Steps.
Context (intSize : Z).

Definition setWorker (pc : WorkerPC) (s : System) : System :=
  {| loop := loop s; stdout := stdout s; worker := pc; driver := driver s;
     executed := executed s; posted := posted s |}.

Definition stepWorker (s : System) : option System :=
  match worker s with
  | AtLoopTest =>
      Some (setWorker (if isStopped (loop s) then AtSend else AtEmptyTest) s)
  | AtEmptyTest =>
      Some (setWorker (if decide (length (queue (loop s)) = 0%nat)
                       then AtLoopTest else AtPull) s)
  | AtPull =>
      match pull (queue (loop s)) with
      | None => Some (setWorker WorkerPanicked s)
      | Some (cmd, rest) =>
          Some {| loop := {| queue := rest;
                             stopSignal := stopSignal (loop s);
                             isStopped := isStopped (loop s) |};
                  stdout := stdout s; worker := AtExecute cmd;
                  driver := driver s;
                  executed := executed s; posted := posted s |}
      end
  | AtExecute cmd =>
      let (l, out) := Execute intSize cmd (loop s) (stdout s) in
      Some {| loop := l; stdout := out; worker := AtLoopTest;
              driver := driver s;
              executed := executed s ++ [cmd];
              posted := posted s ++ postsOf intSize cmd |}
  | AtSend => handover s
  | WorkerDone | WorkerPanicked => None
  end.

Definition postBy (cmd : Command) (next : DriverPC) (s : System) : System :=
  {| loop := Post cmd (loop s); stdout := stdout s; worker := worker s;
     driver := next; executed := executed s; posted := posted s ++ [cmd] |}.

(** The driver posts what is left of its script; [AwaitFinish] then posts
    the Stop command and blocks in the receive. *)
Definition stepDriver (s : System) : option System :=
  match driver s with
  | Posting (cmd :: rest) => Some (postBy cmd (Posting rest) s)
  | Posting [] => Some (postBy stopCommand AtReceive s)
  | AtReceive => handover s
  | Returned => None
  end.

Definition step (t : Thread) (s : System) : option System :=
  match t with
  | Driver => stepDriver s
  | Worker => stepWorker s
  end.

(** A schedule names the thread that moves next; a thread that is blocked
    or has ended does not move. *)
Fixpoint run (schedule : list Thread) (s : System) : System :=
  match schedule with
  | [] => s
  | t :: schedule' => run schedule' (default s (step t s))
  end.
End Steps.

(** ** Vocabulary of the properties *)

(** [Interleave a b l]: [l] is [a] and [b] shuffled together, each of them
    keeping its own order. *)
Inductive Interleave {A : Type} : list A → list A → list A → Prop :=
  | Interleave_nil : Interleave [] [] []
  | Interleave_left x a b l : Interleave a b l → Interleave (x :: a) b (x :: l)
  | Interleave_right x a b l : Interleave a b l → Interleave a (x :: b) (x :: l).

Definition notStop (cmd : Command) : Prop := isStop cmd = false.

#[global] Instance notStop_dec (cmd : Command) : Decision (notStop cmd).
Proof. unfold notStop. solve_decision. Defined.

(** The command the worker has pulled and not executed yet. *)
Definition current (s : System) : list Command :=
  match worker s with
  | AtExecute cmd => [cmd]
  | _ => []
  end.

(** The commands that wait for their execution, next one first. *)
Definition pending (s : System) : list Command :=
  current s ++ queue (loop s).

(** What the executed commands have posted. *)
Definition workerPosts (intSize : Z) (s : System) : list Command :=
  flat_map (postsOf intSize) (executed s).

(** The worker is inside its loop. *)
Definition running (pc : WorkerPC) : bool :=
  match pc with
  | AtLoopTest | AtEmptyTest | AtPull | AtExecute _ => true
  | AtSend | WorkerDone | WorkerPanicked => false
  end.

(** The worker never reaches [pull] with an empty queue. *)
Definition Safe (s : System) : Prop :=
  worker s ≠ WorkerPanicked ∧ (worker s = AtPull → queue (loop s) ≠ []).

(** How the logs, the queue and the two threads hang together when the
    driver's script holds no Stop command: the executed and pending commands
    are the driver's posts shuffled with the worker's, followed by the Stop
    command of [AwaitFinish] once it is posted. *)
Definition Coherent (intSize : Z) (script : list Command) (s : System) : Prop :=
  match driver s with
  | Posting rest =>
      isStopped (loop s) = false ∧ running (worker s) = true ∧
      ∃ done, script = done ++ rest ∧
        Interleave done (workerPosts intSize s) (executed s ++ pending s)
  | AtReceive =>
      if isStopped (loop s)
      then (worker s = AtLoopTest ∨ worker s = AtSend) ∧ queue (loop s) = [] ∧
           ∃ l, executed s = l ++ [stopCommand] ∧
             Interleave script (workerPosts intSize s) l
      else running (worker s) = true ∧
           ∃ waiting, pending s = waiting ++ [stopCommand] ∧
             Interleave script (workerPosts intSize s) (executed s ++ waiting)
  | Returned =>
      worker s = WorkerDone ∧ queue (loop s) = [] ∧ isStopped (loop s) = true ∧
      ∃ l, executed s = l ++ [stopCommand] ∧
        Interleave script (workerPosts intSize s) l
  end.

(** The commands of the script that the driver has posted so far. *)
Definition postedByDriver (script : list Command) (s : System) : list Command :=
  match driver s with
  | Posting rest => take (length script - length rest) script
  | AtReceive | Returned => script
  end.

(** Executing the command posts nothing. *)
Definition silent (intSize : Z) (cmd : Command) : Prop :=
  postsOf intSize cmd = [].

(** Every command handed to [push] is executed or still pending. *)
Definition Logged (s : System) : Prop :=
  posted s ≡ₚ executed s ++ pending s.

(** A schedule that lets the driver post [stopCommand] and the worker execute
    it before the driver posts anything else. *)
Definition stopFirst : list Thread :=
  [Driver] ++ replicate 5 Worker ++ [Driver; Driver; Worker].

(** The driver posts everything and calls [AwaitFinish] before the worker
    moves. *)
Definition driverFirst : list Thread :=
  replicate 4 Driver ++ replicate 22 Worker.

(** The worker executes every command before the driver posts the next. *)
Definition workerFirst : list Thread :=
  [Driver] ++ replicate 4 Worker ++ [Driver] ++ replicate 8 Worker ++
  [Driver] ++ replicate 4 Worker ++ [Driver] ++ replicate 6 Worker.

(** The states one step away, for either thread. *)
Definition successors (intSize : Z) (s : System) : list System :=
  [default s (step intSize Driver s); default s (step intSize Worker s)].

Definition closedUnder (intSize : Z) (states : list System) : bool :=
  forallb (λ s, forallb (λ s', bool_decide (s' ∈ states)) (successors intSize s))
    states.

(** Depth-first search of the states a schedule can reach. *)
Fixpoint explore (intSize : Z) (fuel : nat) (frontier seen : list System) : list System :=
  match fuel with
  | O => seen
  | S fuel' =>
      match frontier with
      | [] => seen
      | s :: frontier' =>
          if bool_decide (s ∈ seen) then explore intSize fuel' frontier' seen
          else explore intSize fuel' (successors intSize s ++ frontier') (s :: seen)
      end
  end.

(** Work that a list of waiting commands stands for: one execution for each
    of them and one for each command these executions post. *)
Definition weight (intSize : Z) (l : list Command) : nat :=
  length l + length (flat_map (postsOf intSize) l).

(** Steps of the worker from a place in its loop to the next execution. *)
Definition stepsToExecute (pc : WorkerPC) : nat :=
  match pc with
  | AtLoopTest => 3
  | AtEmptyTest => 2
  | AtPull => 1
  | _ => 0
  end.

(** [AwaitFinish] is blocked in its receive and the worker still has
    [waiting] to execute before the Stop command. *)
Definition Draining (s : System) (waiting : list Command) : Prop :=
  driver s = AtReceive ∧ isStopped (loop s) = false ∧
  running (worker s) = true ∧
  pending s = waiting ++ [stopCommand] ∧ Forall notStop waiting.

Definition workLeft (intSize : Z) (s : System) (waiting : list Command) : nat :=
  4 * weight intSize waiting + stepsToExecute (worker s).

(** The scenario of the three input lines. *)
Definition demoLines : list string := ["print hello"; "add 2 3"; "print done"].

Definition demo : list Command :=
  [printCommand "hello"; addCommand 2 3; printCommand "done"].

Definition demoStates (intSize : Z) : list System :=
  explore intSize 1000 [boot demo] [].

(** A moment of the scenario at which the Add command has executed and
    [print done] is not posted yet. *)
Definition sumFirst (s : System) : bool :=
  bool_decide (addCommand 2 3 ∈ executed s ∧ printCommand "done" ∉ posted s).

(** Of the Print command of the sum and [print done], the one that was
    posted first is the one of the sum. *)
Definition sumAhead (s : System) : bool :=
  bool_decide
    (head (filter (λ cmd, cmd = printCommand "5" ∨ cmd = printCommand "done")
             (posted s)) = Some (printCommand "5")).

(** What the scenario has printed by the time [AwaitFinish] returns. *)
Definition demoOutput (s : System) : bool :=
  bool_decide (driver s = Returned →
    stdout s = if sumAhead s then ["hello"; "5"; "done"]
               else ["hello"; "done"; "5"]).

(** The sum is ahead after a step when it was ahead before, or when the step
    leads to a moment at which the Add command has executed with
    [print done] not posted. *)
Definition demoHistory (intSize : Z) (s : System) : bool :=
  forallb (λ s', Bool.eqb (sumAhead s') (sumAhead s || sumFirst s'))
    (successors intSize s).

(** ** Vocabulary of the further properties *)

(** [n] calls of [pull] in a row: the commands they return, in order, and the
    queue they leave; [None] when one of them panics. *)
Fixpoint pulls (n : nat) (q : commandsQueue) : option (list Command * commandsQueue) :=
  match n with
  | O => Some ([], q)
  | S n' =>
      match pull q with
      | None => None
      | Some (cmd, q') =>
          match pulls n' q' with
          | None => None
          | Some (cmds, q'') => Some (cmd :: cmds, q'')
          end
      end
  end.

(** The lines that executing [cmd] writes to the standard output. *)
Definition printsOf (intSize : Z) (cmd : Command) : list string :=
  snd (Execute intSize cmd ([] : list Command) []).

(** The table [asciiSpace] of package [strings]: tab, line feed, vertical
    tab, form feed, carriage return and blank. *)
Definition asciiSpace (c : ascii) : bool :=
  ((9 <=? byte c) && (byte c <=? 13)) || (byte c =? 32).

(** No byte of the string is one of the six ASCII white space bytes. *)
Fixpoint spaceFree (s : string) : bool :=
  match s with
  | EmptyString => true
  | String c s' => negb (asciiSpace c) && spaceFree s'
  end.

(** Every rune of the string is white space; [skip] counts the bytes left
    of the rune that has started. *)
Fixpoint blankFrom (s : string) (skip : nat) : bool :=
  match s with
  | EmptyString => true
  | String c s' =>
      match skip with
      | S skip' => blankFrom s' skip'
      | O =>
          let (r, width) := DecodeRuneInString s in
          IsSpace r && blankFrom s' (width - 1)
      end
  end.

Definition blank (s : string) : bool := blankFrom s 0.

(** The next [k] bytes of the string are there and are no ASCII bytes. *)
Fixpoint highBytes (k : nat) (s : string) : bool :=
  match k with
  | O => true
  | S k' =>
      match s with
      | EmptyString => false
      | String c s' => (128 <=? byte c) && highBytes k' s'
      end
  end.

(** The no-break space U+00A0 in UTF-8. *)
Definition nbsp : string :=
  String (ascii_of_nat 194) (String (ascii_of_nat 160) EmptyString).

(** The value fits an [int] of [intSize] bits. *)
Definition inRange (intSize : Z) (z : Z) : Prop :=
  - 2 ^ (intSize - 1) ≤ z < 2 ^ (intSize - 1).

(** The stopped flag against the log of executions: the flag is set by the
    one Stop command that executes, nothing executes after it, and the worker
    stays in its loop until then. *)
Definition Halting (s : System) : Prop :=
  if isStopped (loop s)
  then (∃ l, executed s = l ++ [stopCommand] ∧ Forall notStop l) ∧
       (worker s = AtLoopTest ∨ worker s = AtSend ∨ worker s = WorkerDone)
  else Forall notStop (executed s) ∧ running (worker s) = true.

(** The signal channel against the two threads. *)
Definition Signalled (s : System) : Prop :=
  stopSignal (loop s) = (if decide (driver s = Returned) then 1 else 0)%nat ∧
  (driver s = Returned ↔ worker s = WorkerDone).

(** The worker has left its loop. *)
Definition exited (pc : WorkerPC) : bool :=
  match pc with
  | AtSend | WorkerDone => true
  | _ => false
  end.

(** [AwaitFinish] is blocked in its receive and the worker has [ahead] to
    execute before the first Stop command that is pending, with [behind]
    queued after it. *)
Definition DrainingTo (s : System) (ahead behind : list Command) : Prop :=
  driver s = AtReceive ∧ isStopped (loop s) = false ∧
  running (worker s) = true ∧
  pending s = ahead ++ stopCommand :: behind ∧ Forall notStop ahead.

(** Once [AwaitFinish] waits, a Stop command has executed or is pending. *)
Definition Awaited (s : System) : Prop :=
  driver s = AtReceive →
  isStopped (loop s) = true ∨ stopCommand ∈ pending s.

(** * Properties *)

(** ** The queue *)

Lemma peek_snoc (q : commandsQueue) (cmd : Command) : peek (q ++ [cmd]) = Some cmd.
Proof.
  unfold peek. rewrite length_app. simpl.
  destruct (decide _) as [E|_]; [lia|].
  replace (length q + 1 - 1)%nat with (length q) by lia.
  by apply list_lookup_middle.
Qed.

Lemma push_nil (cmd : Command) : push [] cmd = [cmd].
Proof. reflexivity. Qed.

Lemma push_snoc_stop (q : commandsQueue) (cmd : Command) :
  push (q ++ [stopCommand]) cmd = q ++ [cmd; stopCommand].
Proof.
  unfold push. rewrite peek_snoc. simpl.
  rewrite length_app. simpl.
  rewrite insert_app_r_alt by lia.
  replace (length q + 1 - 1 - length q)%nat with 0%nat by lia.
  simpl. by rewrite <- app_assoc.
Qed.

Lemma push_snoc_other (q : commandsQueue) (c cmd : Command) :
  isStop c = false → push (q ++ [c]) cmd = q ++ [c; cmd].
Proof.
  intros Hc. unfold push. rewrite peek_snoc, Hc. by rewrite <- app_assoc.
Qed.

Lemma push_no_stop (q : commandsQueue) (cmd : Command) :
  Forall (λ c, isStop c = false) q → push q cmd = q ++ [cmd].
Proof.
  induction q as [|c q _] using rev_ind; [intros _; reflexivity|].
  intros [_ Hc]%Forall_app. rewrite Forall_singleton in Hc.
  rewrite push_snoc_other by exact Hc. by rewrite <- app_assoc.
Qed.

Lemma isStop_true (cmd : Command) : isStop cmd = true ↔ cmd = stopCommand.
Proof. destruct cmd; naive_solver. Qed.

Lemma countStop_app (q1 q2 : commandsQueue) :
  countStop (q1 ++ q2) = (countStop q1 + countStop q2)%nat.
Proof. unfold countStop. by rewrite filter_app, length_app. Qed.

Lemma countStop_singleton (cmd : Command) :
  countStop [cmd] = if isStop cmd then 1%nat else 0%nat.
Proof. by destruct cmd. Qed.

Lemma countStop_zero (q : commandsQueue) :
  countStop q = 0%nat ↔ Forall (λ c, isStop c = false) q.
Proof.
  unfold countStop. induction q as [|c q IH]; simpl.
  - split; [constructor | done].
  - rewrite filter_cons. rewrite Forall_cons. destruct (decide _) as [E|E]; simpl.
    + split; [lia | intros [? _]; congruence].
    + rewrite IH. apply not_true_is_false in E. tauto.
Qed.

(** Every push makes the queue one element longer, whatever is pushed. *)
Lemma length_push (q : commandsQueue) (cmd : Command) :
  length (push q cmd) = S (length q).
Proof.
  induction q as [|c q _] using rev_ind; [done|].
  destruct (isStop c) eqn:Hc.
  - apply isStop_true in Hc as ->. rewrite push_snoc_stop.
    rewrite !length_app. simpl. lia.
  - rewrite push_snoc_other by done. rewrite !length_app. simpl. lia.
Qed.

Lemma countStop_push (q : commandsQueue) (cmd : Command) :
  countStop (push q cmd) = (countStop q + if isStop cmd then 1 else 0)%nat.
Proof.
  induction q as [|c q _] using rev_ind.
  - rewrite push_nil. apply countStop_singleton.
  - destruct (isStop c) eqn:Hc.
    + apply isStop_true in Hc as ->. rewrite push_snoc_stop.
      rewrite !countStop_app.
      change [cmd; stopCommand] with ([cmd] ++ [stopCommand]).
      rewrite countStop_app, !countStop_singleton. simpl. lia.
    + rewrite push_snoc_other by done.
      change [c; cmd] with ([c] ++ [cmd]).
      rewrite !countStop_app, !countStop_singleton. lia.
Qed.

(** A Stop command at the end of the queue stays at the end. *)
Lemma peek_push (q : commandsQueue) (cmd : Command) :
  peek (push q cmd) =
    if bool_decide (peek q = Some stopCommand) then Some stopCommand else Some cmd.
Proof.
  induction q as [|c q _] using rev_ind; [done|].
  rewrite peek_snoc. destruct (isStop c) eqn:Hc.
  - apply isStop_true in Hc as ->. rewrite push_snoc_stop.
    rewrite bool_decide_eq_true_2 by done.
    change [cmd; stopCommand] with ([cmd] ++ [stopCommand]).
    by rewrite app_assoc, peek_snoc.
  - rewrite push_snoc_other by done.
    rewrite bool_decide_eq_false_2 by (intros [= ->]; done).
    change [c; cmd] with ([c] ++ [cmd]). by rewrite app_assoc, peek_snoc.
Qed.

Lemma push_Permutation (q : commandsQueue) (cmd : Command) :
  push q cmd ≡ₚ q ++ [cmd].
Proof.
  induction q as [|c q _] using rev_ind; [done|].
  destruct (isStop c) eqn:Hc.
  - apply isStop_true in Hc as ->. rewrite push_snoc_stop.
    rewrite <- app_assoc. apply Permutation_app_head. simpl. apply perm_swap.
  - rewrite push_snoc_other by done. by rewrite <- app_assoc.
Qed.

Lemma pull_cons (cmd : Command) (q : commandsQueue) : pull (cmd :: q) = Some (cmd, q).
Proof. reflexivity. Qed.

Lemma pull_nil : pull [] = None.
Proof. reflexivity. Qed.

Lemma StopLast_no_stop (q : commandsQueue) : countStop q = 0%nat → StopLast q.
Proof. intros E. split; lia. Qed.

Lemma StopLast_push (q : commandsQueue) (cmd : Command) :
  StopLast q → isStop cmd = false ∨ countStop q = 0%nat → StopLast (push q cmd).
Proof.
  intros [Hle Hlast] Hcase. split.
  - rewrite countStop_push. destruct Hcase as [-> | ->]; [lia|].
    destruct (isStop cmd); lia.
  - rewrite countStop_push, peek_push. intros Hpos.
    case_bool_decide as Hpeek; [done|].
    destruct (isStop cmd) eqn:Hcmd.
    + apply isStop_true in Hcmd. by subst.
    + destruct Hcase as [? | Hzero]; [|lia].
      exfalso. apply Hpeek, Hlast. lia.
Qed.

Lemma peek_stop_counted (q : commandsQueue) :
  peek q = Some stopCommand → (0 < countStop q)%nat.
Proof.
  induction q as [|c q _] using rev_ind; [done|].
  rewrite peek_snoc. intros [= ->].
  rewrite countStop_app, countStop_singleton. simpl. lia.
Qed.

(** C1, as the code has it: a push keeps "at most one Stop, and it is last"
    when the pushed command is no Stop command, or when no Stop command is
    waiting yet; a Stop command pushed behind a waiting Stop command leaves
    two of them, the last element still being a Stop command. *)
Theorem push_keeps_stop_last (q : commandsQueue) (cmd : Command) :
  StopLast q →
  (isStop cmd = false ∨ countStop q = 0%nat → StopLast (push q cmd)) ∧
  (isStop cmd = true → peek q = Some stopCommand →
   countStop (push q cmd) = 2%nat ∧ peek (push q cmd) = Some stopCommand).
Proof.
  intros Hq. split; [by apply StopLast_push|].
  intros Hcmd Hpeek. rewrite countStop_push, peek_push, Hcmd.
  rewrite bool_decide_eq_true_2 by done.
  pose proof (peek_stop_counted q Hpeek). destruct Hq as [? _].
  split; [lia | done].
Qed.

Lemma push_keeps_stop_last_witness :
  (isStop (printCommand "b") = false ∨
   countStop [printCommand "a"; stopCommand] = 0%nat →
   StopLast (push [printCommand "a"; stopCommand] (printCommand "b"))) ∧
  (isStop (printCommand "b") = true →
   peek [printCommand "a"; stopCommand] = Some stopCommand →
   countStop (push [printCommand "a"; stopCommand] (printCommand "b")) = 2%nat ∧
   peek (push [printCommand "a"; stopCommand] (printCommand "b")) = Some stopCommand).
Proof.
  apply (push_keeps_stop_last [printCommand "a"; stopCommand] (printCommand "b")).
  split; [vm_compute; lia | reflexivity].
Defined.

(** C1 fails as stated: a Stop command pushed onto a queue that ends in a
    Stop command leaves two of them in the queue; two calls of [Post] with a
    Stop command get there from [NewEventLoop]. *)
Lemma push_stop_on_stop_breaks_stop_last :
  StopLast (queue (Post stopCommand NewEventLoop)) ∧
  queue (Post stopCommand (Post stopCommand NewEventLoop)) = [stopCommand; stopCommand] ∧
  ¬ StopLast (push (push [] stopCommand) stopCommand).
Proof.
  split; [split; [vm_compute; lia | reflexivity]|].
  split; [reflexivity|].
  intros [Hle _]. vm_compute in Hle. lia.
Qed.

(** C2, as the code has it: the second of two Stop pushes lengthens the queue
    by one like any other push, and leaves one more Stop command in it. *)
Theorem push_stop_twice_grows (q : commandsQueue) :
  length (push (push q stopCommand) stopCommand) = S (length (push q stopCommand)) ∧
  countStop (push (push q stopCommand) stopCommand) = S (countStop (push q stopCommand)) ∧
  (2 ≤ countStop (push (push q stopCommand) stopCommand))%nat.
Proof.
  rewrite length_push, !countStop_push. simpl. repeat split; lia.
Qed.

(** C2 fails as stated: on the empty queue the two lengths are 2 and 1. *)
Lemma push_stop_twice_not_idempotent :
  length (push (push [] stopCommand) stopCommand) ≠ length (push [] stopCommand) ∧
  countStop (push (push [] stopCommand) stopCommand) = 2%nat.
Proof. split; [vm_compute; lia | reflexivity]. Qed.

(** C6: [push] appends [cmd], unless the last element is a Stop command;
    then [cmd] takes the last position and the Stop command follows it. *)
Theorem push_appends_or_splices (q : commandsQueue) (cmd : Command) :
  push q cmd =
    if bool_decide (peek q = Some stopCommand)
    then take (length q - 1) q ++ [cmd; stopCommand]
    else q ++ [cmd].
Proof.
  induction q as [|c q _] using rev_ind; [done|].
  rewrite peek_snoc. destruct (isStop c) eqn:Hc.
  - apply isStop_true in Hc as ->.
    rewrite bool_decide_eq_true_2 by done. rewrite push_snoc_stop.
    rewrite length_app. simpl.
    replace (length q + 1 - 1)%nat with (length q) by lia.
    by rewrite take_app_length.
  - rewrite bool_decide_eq_false_2 by (intros [= ->]; done).
    rewrite push_snoc_other by done. by rewrite <- app_assoc.
Qed.

(** C8: [Stop] sets the stopped flag and leaves the queue and the signal
    channel as they are. *)
Theorem Stop_sets_flag_only (l : EventLoop) :
  isStopped (Stop l) = true ∧
  queue (Stop l) = queue l ∧
  stopSignal (Stop l) = stopSignal l.
Proof. done. Qed.

(** ** The parser *)

Example Fields_splits_on_blanks :
  Fields "  add   2 3 " = ["add"; "2"; "3"] ∧ Fields "   " = [].
Proof. split; reflexivity. Qed.

Example Fields_splits_on_unicode_space :
  Fields ("a" +:+ nbsp +:+ "b") = ["a"; "b"] ∧ Fields nbsp = [] ∧
  parse 64 ("print a" +:+ nbsp +:+ "b") = Returns (Some (printCommand "a")) ∧
  parse 64 ("add 1" +:+ nbsp +:+ "2") = Returns (Some (addCommand 1 2)) ∧
  parse 64 nbsp = Panics.
Proof. repeat split; vm_compute; reflexivity. Qed.

Example Atoi_reads_signed_decimals :
  Atoi 64 "-17" = (-17, None) ∧
  Atoi 64 "+8" = (8, None) ∧
  Atoi 64 "x" = (0, Some ErrSyntax) ∧
  Atoi 64 "9223372036854775808" = (9223372036854775807, Some ErrRange) ∧
  Atoi 32 "-2147483649" = (-2147483648, Some ErrRange).
Proof. repeat split; vm_compute; reflexivity. Qed.

Example parse_reads_the_commands :
  parse 64 "print hello" = Returns (Some (printCommand "hello")) ∧
  parse 64 "add 2 3" = Returns (Some (addCommand 2 3)) ∧
  parse 64 "add x 3" = Returns (Some (addCommand 0 3)) ∧
  parse 64 "stop" = Returns None.
Proof. repeat split; vm_compute; reflexivity. Qed.

Lemma parse_no_fields (intSize : Z) (line : string) :
  Fields line = [] → parse intSize line = Panics.
Proof. unfold parse. by intros ->. Qed.

(** A line whose first field is neither [print] nor [add] is no command. *)
Lemma parse_unknown (intSize : Z) (line command : string) (args : list string) :
  Fields line = command :: args →
  command ≠ "print" → command ≠ "add" →
  parse intSize line = Returns None.
Proof.
  intros Hf Hp Ha. unfold parse. rewrite Hf.
  apply String.eqb_neq in Hp, Ha. by rewrite Hp, Ha.
Qed.

(** C9 fails on the code: an empty or blank line, [print] without an
    argument and [add] with fewer than two arguments make [parse] panic, and
    with it the loop of [main] that reads the lines. *)
Theorem parse_panics_on_short_lines (intSize : Z) :
  parse intSize EmptyString = Panics ∧
  parse intSize "   " = Panics ∧
  parse intSize "print" = Panics ∧
  parse intSize "add 1" = Panics ∧
  scriptOf intSize ["print hello"; EmptyString; "print done"] = Panics.
Proof. done. Qed.

(** ** Addition on machine integers *)

Example Itoa_prints_decimals :
  Itoa 0 = "0" ∧ Itoa 5 = "5" ∧ Itoa (-42) = "-42".
Proof. repeat split; reflexivity. Qed.

Lemma wrap_range (w z : Z) :
  0 < w → - 2 ^ (w - 1) ≤ wrap w z < 2 ^ (w - 1).
Proof.
  intros Hw. unfold wrap.
  assert (Hp : 2 ^ w = 2 * 2 ^ (w - 1)).
  { rewrite <- Z.pow_succ_r by lia. f_equal. lia. }
  assert (0 < 2 ^ (w - 1)) by (apply Z.pow_pos_nonneg; lia).
  pose proof (Z.mod_pos_bound (z + 2 ^ (w - 1)) (2 ^ w)). lia.
Qed.

Lemma wrap_congruent (w z : Z) :
  0 < w → (wrap w z - z) mod 2 ^ w = 0.
Proof.
  intros Hw. unfold wrap.
  assert (0 < 2 ^ w) by (apply Z.pow_pos_nonneg; lia).
  set (m := 2 ^ w) in *. set (h := 2 ^ (w - 1)).
  rewrite (Z.mod_eq (z + h) m) by lia.
  replace (z + h - m * ((z + h) / m) - h - z) with ((- ((z + h) / m)) * m) by lia.
  apply Z.mod_mul. lia.
Qed.

Lemma wrap_small (w z : Z) :
  0 < w → - 2 ^ (w - 1) ≤ z < 2 ^ (w - 1) → wrap w z = z.
Proof.
  intros Hw Hz. unfold wrap.
  assert (Hp : 2 ^ w = 2 * 2 ^ (w - 1)).
  { rewrite <- Z.pow_succ_r by lia. f_equal. lia. }
  rewrite Z.mod_small by lia. lia.
Qed.

(** C10: executing [Add(a, b)] posts the Print command of the sum reduced to
    the [intSize] bits of an [int] in two's complement: the printed value is
    in the range of [int], differs from [a + b] by a multiple of
    [2 ^ intSize], and is [a + b] itself when that is in range. *)
Theorem add_wraps_around (intSize a b : Z) (l : EventLoop) (out : list string) :
  0 < intSize →
  ∃ res,
    Execute intSize (addCommand a b) l out = (Post (printCommand (Itoa res)) l, out) ∧
    - 2 ^ (intSize - 1) ≤ res < 2 ^ (intSize - 1) ∧
    (res - (a + b)) mod 2 ^ intSize = 0 ∧
    (- 2 ^ (intSize - 1) ≤ a + b < 2 ^ (intSize - 1) → res = a + b).
Proof.
  intros Hw. exists (wrap intSize (a + b)).
  split; [reflexivity|].
  split; [by apply wrap_range|].
  split; [by apply wrap_congruent|].
  by apply wrap_small.
Qed.

Lemma add_wraps_around_witness :
  ∃ res,
    Execute 64 (addCommand 9223372036854775807 1) NewEventLoop [] =
      (Post (printCommand (Itoa res)) NewEventLoop, []) ∧
    - 2 ^ (64 - 1) ≤ res < 2 ^ (64 - 1) ∧
    (res - (9223372036854775807 + 1)) mod 2 ^ 64 = 0 ∧
    (- 2 ^ (64 - 1) ≤ 9223372036854775807 + 1 < 2 ^ (64 - 1) →
     res = 9223372036854775807 + 1).
Proof.
  apply (add_wraps_around 64 9223372036854775807 1 NewEventLoop []). lia.
Defined.

Example add_overflow_prints_min :
  queue (fst (Execute 64 (addCommand 9223372036854775807 1) NewEventLoop [])) =
    [printCommand "-9223372036854775808"].
Proof. reflexivity. Qed.

(** ** Interleavings *)

Section Interleavings.
Context {A : Type}.
Implicit Types a b l : list A.

Lemma Interleave_snoc_left a b l x :
  Interleave a b l → Interleave (a ++ [x]) b (l ++ [x]).
Proof.
  induction 1; simpl; try by constructor.
  apply Interleave_left, Interleave_nil.
Qed.

Lemma Interleave_snoc_right a b l x :
  Interleave a b l → Interleave a (b ++ [x]) (l ++ [x]).
Proof.
  induction 1; simpl; try by constructor.
  apply Interleave_right, Interleave_nil.
Qed.

Lemma Interleave_Permutation a b l : Interleave a b l → l ≡ₚ a ++ b.
Proof.
  induction 1 as [|x a b l _ IH|x a b l _ IH]; simpl; [done| |].
  - by rewrite IH.
  - rewrite IH. apply Permutation_middle.
Qed.

Lemma Interleave_Forall (P : A → Prop) a b l :
  Interleave a b l → Forall P a → Forall P b → Forall P l.
Proof.
  induction 1; intros Ha Hb; [done| |].
  - apply Forall_cons in Ha as [? ?]. constructor; auto.
  - apply Forall_cons in Hb as [? ?]. constructor; auto.
Qed.

Lemma Interleave_nil_r_inv a l : Interleave a [] l → l = a.
Proof.
  remember [] as b eqn:Hb. induction 1; [done| |done].
  f_equal. auto.
Qed.

End Interleavings.

(** ** The worker never pulls from an empty queue *)

Lemma Safe_boot (script : list Command) : Safe (boot script).
Proof. split; discriminate. Qed.

Lemma push_not_nil (q : commandsQueue) (cmd : Command) : push q cmd ≠ [].
Proof.
  intros E. apply (f_equal length) in E. rewrite length_push in E. discriminate.
Qed.

Lemma Safe_handover (s s' : System) : handover s = Some s' → Safe s'.
Proof.
  unfold handover. intros H.
  destruct (worker s), (driver s); simplify_eq.
  split; discriminate.
Qed.

Lemma Safe_step (intSize : Z) (t : Thread) (s s' : System) :
  Safe s → step intSize t s = Some s' → Safe s'.
Proof.
  intros [Hpanic Hpull] Hstep. destruct t; simpl in Hstep.
  - unfold stepDriver in Hstep.
    destruct (driver s) as [[|cmd rest]| |] eqn:Hd; simplify_eq.
    + split; simpl; [done|]. intros _. apply push_not_nil.
    + split; simpl; [done|]. intros _. apply push_not_nil.
    + by eapply Safe_handover.
  - unfold stepWorker in Hstep.
    destruct (worker s) as [| | |cmd| | |] eqn:Hw; simplify_eq.
    + split; simpl; by destruct (isStopped (loop s)).
    + split; simpl; destruct (decide _) as [E|E]; try done.
      intros _ Hnil. by rewrite Hnil in E.
    + destruct (queue (loop s)) as [|cmd rest] eqn:Hq; [by destruct Hpull|].
      simpl in Hstep. simplify_eq. split; discriminate.
    + destruct (Execute intSize cmd (loop s) (stdout s)). simplify_eq.
      split; discriminate.
    + by eapply Safe_handover.
Qed.

Lemma Safe_run (intSize : Z) (schedule : list Thread) : ∀ s,
  Safe s → Safe (run intSize schedule s).
Proof.
  induction schedule as [|t schedule IH]; intros s Hs; [done|].
  simpl. apply IH. destruct (step intSize t s) eqn:Hstep; [|done].
  by eapply Safe_step.
Qed.

(** C7: [pull] takes the first element off a non-empty queue and leaves the
    others in their order; on an empty queue it panics; and no schedule of
    the program, whatever the driver posts, brings the worker to that panic:
    whenever the worker is about to pull, the queue is not empty. *)
Theorem pull_is_fifo_and_guarded :
  (∀ cmd q, pull (cmd :: q) = Some (cmd, q)) ∧
  pull [] = None ∧
  (∀ intSize script schedule,
     let s := run intSize schedule (boot script) in
     worker s ≠ WorkerPanicked ∧ (worker s = AtPull → queue (loop s) ≠ [])).
Proof.
  split; [apply pull_cons|]. split; [apply pull_nil|].
  intros intSize script schedule. apply Safe_run, Safe_boot.
Qed.

(** ** Coherence of the logs with the queue *)

Lemma postsOf_notStop (intSize : Z) (cmd : Command) :
  Forall notStop (postsOf intSize cmd).
Proof. destruct cmd; repeat constructor. Qed.

Lemma workerPosts_notStop (intSize : Z) (s : System) :
  Forall notStop (workerPosts intSize s).
Proof.
  unfold workerPosts. induction (executed s) as [|cmd ex IH]; simpl; [done|].
  apply Forall_app. split; [apply postsOf_notStop | done].
Qed.

Lemma notStop_stop : ¬ notStop stopCommand.
Proof. discriminate. Qed.

Lemma Coherent_boot (intSize : Z) (script : list Command) :
  Coherent intSize script (boot script).
Proof.
  unfold Coherent. simpl. split; [done|]. split; [done|].
  exists []. split; [done|]. constructor.
Qed.

(** While the driver is still posting, nothing executed or pending is a Stop
    command. *)
Lemma posting_line_notStop (intSize : Z) (script done rest : list Command) (s : System) :
  Forall notStop script → script = done ++ rest →
  Interleave done (workerPosts intSize s) (executed s ++ pending s) →
  Forall notStop (executed s ++ pending s).
Proof.
  intros Hscript -> Hshuffle. apply Forall_app in Hscript as [Hdone _].
  eapply Interleave_Forall; [done..|apply workerPosts_notStop].
Qed.

Lemma Coherent_handover (intSize : Z) (script : list Command) (s s' : System) :
  Coherent intSize script s → handover s = Some s' → Coherent intSize script s'.
Proof.
  unfold handover, Coherent. intros H Hh.
  destruct (worker s) eqn:Hw, (driver s) eqn:Hd; simplify_eq. simpl.
  destruct (isStopped (loop s)) eqn:Hstopped.
  - destruct H as (_ & Hq & l & Hex & Hshuffle). eauto 10.
  - by destruct H as [? _].
Qed.

Lemma Coherent_stepDriver (intSize : Z) (script : list Command) (s s' : System) :
  Forall notStop script →
  Coherent intSize script s → stepDriver s = Some s' → Coherent intSize script s'.
Proof.
  intros Hscript H Hstep. unfold stepDriver in Hstep.
  destruct (driver s) as [[|cmd rest]| |] eqn:Hd; simplify_eq;
    [| |by eapply Coherent_handover].
  - (* AwaitFinish posts its Stop command *)
    unfold Coherent in *. rewrite Hd in H. simpl.
    destruct H as (Hstopped & Hrun & done & Hdone & Hshuffle).
    rewrite app_nil_r in Hdone. subst done.
    pose proof (posting_line_notStop _ _ _ [] s Hscript
                  (eq_sym (app_nil_r _)) Hshuffle) as Hline.
    rewrite Hstopped. split; [done|].
    exists (pending s). split; [|done].
    unfold pending in *. simpl.
    rewrite push_no_stop; [by rewrite app_assoc|].
    by apply Forall_app in Hline as [_ [_ ?]%Forall_app].
  - (* the next command of the script *)
    unfold Coherent in *. rewrite Hd in H. simpl.
    destruct H as (Hstopped & Hrun & done & Hdone & Hshuffle).
    pose proof (posting_line_notStop _ _ _ _ s Hscript Hdone Hshuffle) as Hline.
    split; [done|]. split; [done|].
    exists (done ++ [cmd]). split; [by rewrite <- app_assoc|].
    unfold pending in *. simpl.
    rewrite push_no_stop by (by apply Forall_app in Hline as [_ [_ ?]%Forall_app]).
    change (current (postBy cmd (Posting rest) s)) with (current s).
    rewrite !app_assoc. apply Interleave_snoc_left. by rewrite <- !app_assoc.
Qed.

(** Moving the worker between the tests of its loop changes neither the logs
    nor what is pending. *)
Lemma Coherent_setWorker (intSize : Z) (script : list Command) (s : System) (pc : WorkerPC) :
  current s = [] → current (setWorker pc s) = [] →
  running (worker s) = true →
  (if isStopped (loop s) then pc = AtSend else running pc = true) →
  Coherent intSize script s → Coherent intSize script (setWorker pc s).
Proof.
  intros Hcur Hcur' Hrun Hpc H. unfold Coherent, pending in *. simpl.
  rewrite Hcur in H. change (current _) with (current (setWorker pc s)).
  rewrite Hcur'.
  destruct (driver s) eqn:Hd.
  - destruct H as (Hstopped & _ & H). rewrite Hstopped in Hpc. done.
  - destruct (isStopped (loop s)) eqn:Hstopped.
    + destruct H as (_ & H). split; [by right | done].
    + destruct H as (_ & H). done.
  - destruct H as [Hw _]. by rewrite Hw in Hrun.
Qed.

Lemma Coherent_pull (intSize : Z) (script : list Command) (s : System)
    (cmd : Command) (rest : list Command) :
  worker s = AtPull → queue (loop s) = cmd :: rest →
  Coherent intSize script s →
  Coherent intSize script
    {| loop := {| queue := rest; stopSignal := stopSignal (loop s);
                  isStopped := isStopped (loop s) |};
       stdout := stdout s; worker := AtExecute cmd; driver := driver s;
       executed := executed s; posted := posted s |}.
Proof.
  intros Hw Hq H. unfold Coherent, pending, current in *. simpl.
  rewrite Hw, Hq in H. simpl in H.
  destruct (driver s); [done| |by destruct H as [? _]].
  destruct (isStopped (loop s)); [|done].
  destruct H as ([?|?] & _); congruence.
Qed.

Lemma Coherent_execute (intSize : Z) (script : list Command) (s : System)
    (cmd : Command) (l : EventLoop) (out : list string) :
  Forall notStop script →
  worker s = AtExecute cmd →
  Execute intSize cmd (loop s) (stdout s) = (l, out) →
  Coherent intSize script s →
  Coherent intSize script
    {| loop := l; stdout := out; worker := AtLoopTest; driver := driver s;
       executed := executed s ++ [cmd];
       posted := posted s ++ postsOf intSize cmd |}.
Proof.
  intros Hscript Hw Hexec H.
  unfold Coherent, pending, current, workerPosts in *. simpl.
  rewrite Hw in H. rewrite flat_map_app. simpl. rewrite app_nil_r.
  destruct (driver s) eqn:Hd.
  - (* the driver is still posting: the queue holds no Stop command *)
    destruct H as (Hstopped & _ & done & Hdone & Hshuffle).
    assert (Hline : Forall notStop (executed s ++ [cmd] ++ queue (loop s))).
    { subst script. apply Forall_app in Hscript as [? _].
      eapply Interleave_Forall; [done..|apply workerPosts_notStop]. }
    apply Forall_app in Hline as [_ [[Hcmd _]%Forall_cons Hq]%Forall_app].
    destruct cmd as [|arg|arg1 arg2]; [by apply notStop_stop in Hcmd| |];
      simpl in Hexec; simplify_eq; simpl.
    + rewrite app_nil_r, <- app_assoc. eauto.
    + rewrite push_no_stop by done.
      split; [done|]. split; [done|]. exists done. split; [done|].
      rewrite (app_assoc _ (queue (loop s))).
      apply Interleave_snoc_right. by rewrite <- app_assoc.
  - destruct (isStopped (loop s)) eqn:Hstopped;
      [destruct H as ([?|?] & _); congruence|].
    destruct H as (_ & waiting & Hpending & Hshuffle).
    assert (Hline : Forall notStop (executed s ++ waiting)).
    { eapply Interleave_Forall; [done..|apply workerPosts_notStop]. }
    apply Forall_app in Hline as [_ Hwaiting].
    destruct waiting as [|c waiting]; simpl in Hpending;
      injection Hpending as Hc Hq.
    { (* only the Stop command is left *)
      subst cmd. simpl in Hexec. simplify_eq. simpl.
      split; [by left|]. split; [done|].
      exists (executed s). split; [done|]. by rewrite !app_nil_r in *. }
    subst c. apply Forall_cons in Hwaiting as [Hcmd Hwaiting].
    destruct cmd as [|arg|arg1 arg2]; [by apply notStop_stop in Hcmd| |];
      simpl in Hexec; simplify_eq; simpl; rewrite Hstopped; (split; [done|]).
    + exists waiting. split; [done|].
      by rewrite app_nil_r, <- app_assoc.
    + exists (waiting ++ [printCommand (Itoa (wrap intSize (arg1 + arg2)))]).
      rewrite Hq, push_snoc_stop.
      split; [by rewrite <- app_assoc|].
      rewrite (app_assoc _ waiting).
      apply Interleave_snoc_right. by rewrite <- app_assoc.
  - destruct H as [? _]. congruence.
Qed.

Lemma Coherent_stepWorker (intSize : Z) (script : list Command) (s s' : System) :
  Forall notStop script → Safe s →
  Coherent intSize script s → stepWorker intSize s = Some s' →
  Coherent intSize script s'.
Proof.
  intros Hscript [_ Hsafe] H Hstep. unfold stepWorker in Hstep.
  destruct (worker s) as [| | |cmd| | |] eqn:Hw; simplify_eq.
  - apply Coherent_setWorker; unfold current; rewrite ?Hw; try done.
    + simpl. by destruct (isStopped (loop s)).
    + by destruct (isStopped (loop s)).
  - apply Coherent_setWorker; unfold current; rewrite ?Hw; try done.
    + simpl. by destruct (decide _).
    + destruct (isStopped (loop s)) eqn:Hstopped; [|by destruct (decide _)].
      exfalso. unfold Coherent in H. rewrite Hstopped, Hw in H.
      destruct (driver s); [by destruct H as [? _]| |by destruct H as [? _]].
      by destruct H as ([?|?] & _).
  - destruct (queue (loop s)) as [|cmd rest] eqn:Hq; [by destruct Hsafe|].
    simpl in Hstep. simplify_eq. by apply Coherent_pull.
  - destruct (Execute intSize cmd (loop s) (stdout s)) as [l out] eqn:Hexec.
    simplify_eq. by eapply Coherent_execute.
  - by eapply Coherent_handover.
Qed.

Lemma Coherent_run (intSize : Z) (script : list Command) (schedule : list Thread) :
  Forall notStop script → ∀ s,
  Safe s → Coherent intSize script s →
  Coherent intSize script (run intSize schedule s).
Proof.
  intros Hscript. induction schedule as [|t schedule IH]; intros s Hsafe H; [done|].
  simpl. destruct (step intSize t s) as [s'|] eqn:Hstep; simpl; [|by apply IH].
  apply IH; [by eapply Safe_step|].
  destruct t; simpl in Hstep.
  - by eapply Coherent_stepDriver.
  - by eapply Coherent_stepWorker.
Qed.

Lemma StopLast_notStop (q : commandsQueue) : Forall notStop q → StopLast q.
Proof. intros Hq. apply StopLast_no_stop. by apply countStop_zero. Qed.

Lemma StopLast_snoc_stop (q : commandsQueue) :
  Forall notStop q → StopLast (q ++ [stopCommand]).
Proof.
  intros Hq%countStop_zero. split.
  - rewrite countStop_app, Hq. simpl. done.
  - intros _. apply peek_snoc.
Qed.

(** In the program, where the driver posts no Stop command of its own and
    [AwaitFinish] posts the only one, the queue has at most one Stop command
    at every moment, and has it at its end. *)
Lemma Coherent_StopLast (intSize : Z) (script : list Command) (s : System) :
  Forall notStop script → Coherent intSize script s → StopLast (queue (loop s)).
Proof.
  intros Hscript H. unfold Coherent in H.
  pose proof (workerPosts_notStop intSize s) as Hposts.
  destruct (driver s) as [rest| |].
  - destruct H as (_ & _ & done & -> & Hshuffle).
    apply Forall_app in Hscript as [Hdone _].
    pose proof (Interleave_Forall _ _ _ _ Hshuffle Hdone Hposts) as Hline.
    apply StopLast_notStop.
    by apply Forall_app in Hline as [_ [_ ?]%Forall_app].
  - destruct (isStopped (loop s)).
    + destruct H as (_ & -> & _). by apply StopLast_notStop.
    + destruct H as (_ & waiting & Hpending & Hshuffle).
      pose proof (Interleave_Forall _ _ _ _ Hshuffle Hscript Hposts) as Hline.
      apply Forall_app in Hline as [_ Hwaiting].
      unfold pending, current in Hpending.
      destruct (worker s); simpl in Hpending;
        try (rewrite Hpending; by apply StopLast_snoc_stop).
      destruct waiting as [|c waiting]; simpl in Hpending;
        injection Hpending as _ ->.
      * by apply StopLast_notStop.
      * apply Forall_cons in Hwaiting as [_ ?]. by apply StopLast_snoc_stop.
  - destruct H as (_ & -> & _). by apply StopLast_notStop.
Qed.

Lemma program_keeps_stop_last
    (intSize : Z) (script : list Command) (schedule : list Thread) :
  Forall notStop script →
  StopLast (queue (loop (run intSize schedule (boot script)))).
Proof.
  intros Hscript. apply (Coherent_StopLast intSize script); [done|].
  apply Coherent_run; [done | apply Safe_boot | apply Coherent_boot].
Qed.

(** ** Nothing that is posted gets lost *)

Lemma Execute_queue (intSize : Z) (cmd : Command) (l : EventLoop) (out : list string) :
  queue (fst (Execute intSize cmd l out)) ≡ₚ queue l ++ postsOf intSize cmd.
Proof.
  destruct cmd; simpl; rewrite ?app_nil_r; [done..|apply push_Permutation].
Qed.

Lemma Logged_boot (script : list Command) : Logged (boot script).
Proof. unfold Logged. reflexivity. Qed.

Lemma Logged_handover (s s' : System) : Logged s → handover s = Some s' → Logged s'.
Proof.
  unfold handover, Logged, pending, current. intros H Hh.
  destruct (worker s) eqn:Hw, (driver s); by simplify_eq.
Qed.

Lemma Logged_step (intSize : Z) (t : Thread) (s s' : System) :
  Safe s → Logged s → step intSize t s = Some s' → Logged s'.
Proof.
  intros [_ Hsafe] H Hstep. destruct t; simpl in Hstep.
  - unfold stepDriver in Hstep.
    destruct (driver s) as [[|cmd rest]| |]; simplify_eq;
      [| |by eapply Logged_handover];
      unfold Logged, pending in *; simpl;
      change (current (postBy _ _ s)) with (current s);
      by rewrite push_Permutation, H, !app_assoc.
  - unfold stepWorker in Hstep.
    destruct (worker s) as [| | |cmd| | |] eqn:Hw; simplify_eq;
      [| | | |by eapply Logged_handover];
      unfold Logged, pending, current in *; simpl; rewrite Hw in H.
    + by destruct (isStopped (loop s)).
    + by destruct (decide _).
    + destruct (queue (loop s)) as [|cmd rest] eqn:Hq; [by destruct Hsafe|].
      simpl in Hstep. by simplify_eq.
    + pose proof (Execute_queue intSize cmd (loop s) (stdout s)) as Hq.
      destruct (Execute intSize cmd (loop s) (stdout s)) as [l out].
      simplify_eq. simpl in *. rewrite Hq, H.
      rewrite <- !app_assoc. done.
Qed.

Lemma Logged_run (intSize : Z) (schedule : list Thread) : ∀ s,
  Safe s → Logged s → Logged (run intSize schedule s).
Proof.
  induction schedule as [|t schedule IH]; intros s Hsafe H; [done|].
  simpl. destruct (step intSize t s) as [s'|] eqn:Hstep; simpl; [|by apply IH].
  apply IH; [by eapply Safe_step | by eapply Logged_step].
Qed.

(** ** [AwaitFinish] returns *)

Lemma run_app (intSize : Z) (schedule1 schedule2 : list Thread) : ∀ s,
  run intSize (schedule1 ++ schedule2) s =
    run intSize schedule2 (run intSize schedule1 s).
Proof. induction schedule1 as [|t schedule1 IH]; intros s; simpl; auto. Qed.

Lemma Returned_stable (intSize : Z) (schedule : list Thread) : ∀ s,
  driver s = Returned → driver (run intSize schedule s) = Returned.
Proof.
  induction schedule as [|t schedule IH]; intros s Hd; [done|].
  simpl. apply IH. destruct t; simpl.
  - unfold stepDriver. by rewrite Hd.
  - unfold stepWorker, handover.
    destruct (worker s) eqn:Hw; simpl; rewrite ?Hd; try done.
    + destruct (pull _) as [[? ?]|]; done.
    + by destruct (Execute _ _ _ _).
Qed.

(** Once the Stop command has executed, two steps of the worker end the
    program. *)
Lemma stopped_worker_returns (intSize : Z) (s : System) (n : nat) :
  driver s = AtReceive → isStopped (loop s) = true →
  worker s = AtLoopTest ∨ worker s = AtSend →
  driver (run intSize (replicate (2 + n) Worker) s) = Returned.
Proof.
  intros Hd Hstopped Hw.
  assert (Hsend : ∀ s' schedule, driver s' = AtReceive → worker s' = AtSend →
            driver (run intSize (Worker :: schedule) s') = Returned).
  { intros s' schedule Hd' Hw'. cbn [run step].
    unfold stepWorker, handover. rewrite Hw', Hd'. simpl.
    by apply Returned_stable. }
  destruct Hw as [Hw|Hw].
  - assert (Hfirst : stepWorker intSize s = Some (setWorker AtSend s)).
    { unfold stepWorker. by rewrite Hw, Hstopped. }
    change (replicate (2 + n) Worker) with (Worker :: Worker :: replicate n Worker).
    cbn [run step]. rewrite Hfirst.
    by apply (Hsend (setWorker AtSend s) (replicate n Worker)).
  - by apply Hsend.
Qed.

(** A step of the worker brings the end nearer. *)
Lemma Draining_step (intSize : Z) (s : System) (waiting : list Command) :
  Draining s waiting →
  ∃ s', stepWorker intSize s = Some s' ∧
    ((∃ waiting', Draining s' waiting' ∧
        (workLeft intSize s' waiting' < workLeft intSize s waiting)%nat) ∨
     (driver s' = AtReceive ∧ isStopped (loop s') = true ∧
      worker s' = AtLoopTest)).
Proof.
  intros (Hd & Hstopped & Hrun & Hpending & Hwaiting).
  unfold stepWorker, workLeft, Draining, pending, current in *.
  destruct (worker s) as [| | |cmd| | |] eqn:Hw; try done; simpl in Hpending.
  - eexists. split; [done|]. left. exists waiting. simpl.
    rewrite Hstopped. simpl. split; [done | lia].
  - eexists. split; [done|]. left. exists waiting. simpl.
    rewrite Hpending, length_app. simpl.
    destruct (decide _) as [E|_]; [lia|]. simpl. split; [done | lia].
  - rewrite Hpending.
    destruct waiting as [|cmd waiting]; simpl;
      (eexists; split; [done|]); left.
    + exists []. simpl. split; [done | lia].
    + exists (cmd :: waiting). simpl. split; [done | lia].
  - destruct waiting as [|c waiting]; simpl in Hpending;
      injection Hpending as Hc Hq; subst cmd.
    + simpl. eexists. split; [done|]. right. simpl. done.
    + apply Forall_cons in Hwaiting as [Hcmd Hwaiting].
      destruct c as [|arg|arg1 arg2]; [by apply notStop_stop in Hcmd| |];
        simpl; (eexists; split; [done|]); left.
      * exists waiting. simpl. split; [done|]. unfold weight. simpl. lia.
      * exists (waiting ++ [printCommand (Itoa (wrap intSize (arg1 + arg2)))]).
        simpl. rewrite Hq, push_snoc_stop. split.
        -- repeat split; try done; [by rewrite <- app_assoc|].
           apply Forall_app. split; [done|]. by repeat constructor.
        -- unfold weight. rewrite flat_map_app, !length_app. simpl. lia.
Qed.

Lemma Draining_returns (intSize : Z) (n : nat) : ∀ s waiting,
  Draining s waiting → (workLeft intSize s waiting ≤ n)%nat →
  driver (run intSize (replicate (3 + n) Worker) s) = Returned.
Proof.
  induction n as [|n IH]; intros s waiting Hs Hn;
    destruct (Draining_step intSize s waiting Hs)
      as (s' & Hstep & [(waiting' & Hs' & Hless) | (Hd & Hstopped & Hw)]);
    simpl; rewrite Hstep; simpl.
  - lia.
  - apply (stopped_worker_returns intSize s' 0); auto.
  - apply (IH s' waiting'); [done | lia].
  - apply (stopped_worker_returns intSize s' (S n)); auto.
Qed.

Lemma driver_posts_all (intSize : Z) (rest : list Command) : ∀ s,
  driver s = Posting rest →
  driver (run intSize (replicate (S (length rest)) Driver) s) = AtReceive.
Proof.
  induction rest as [|cmd rest IH]; intros s Hd.
  - simpl. unfold stepDriver. by rewrite Hd.
  - change (replicate (S (length (cmd :: rest))) Driver)
      with (Driver :: replicate (S (length rest)) Driver).
    cbn [run step].
    assert (stepDriver s = Some (postBy cmd (Posting rest) s)) as ->
      by (unfold stepDriver; by rewrite Hd).
    by apply IH.
Qed.

(** Whatever has happened so far, letting the driver finish its posts and
    the worker run gets [AwaitFinish] to return. *)
Lemma Coherent_returns (intSize : Z) (script : list Command) (s : System) :
  Forall notStop script → Safe s → Coherent intSize script s →
  ∃ schedule, driver (run intSize schedule s) = Returned.
Proof.
  intros Hscript Hsafe H.
  assert (Hreceive : ∀ s', Coherent intSize script s' → driver s' = AtReceive →
            ∃ schedule, driver (run intSize schedule s') = Returned).
  { intros s' H' Hd. unfold Coherent in H'. rewrite Hd in H'.
    destruct (isStopped (loop s')) eqn:Hstopped.
    - destruct H' as (Hw & _).
      exists (replicate 2 Worker).
      by apply (stopped_worker_returns intSize s' 0).
    - destruct H' as (Hrun & waiting & Hpending & Hshuffle).
      eexists. eapply (Draining_returns intSize _ s' waiting); [|done].
      repeat split; try done.
      pose proof (Interleave_Forall _ _ _ _ Hshuffle Hscript
                    (workerPosts_notStop intSize s')) as Hline.
      by apply Forall_app in Hline as [_ ?]. }
  destruct (driver s) as [rest| |] eqn:Hd.
  - destruct (Hreceive (run intSize (replicate (S (length rest)) Driver) s))
      as [schedule Hschedule].
    + by apply Coherent_run.
    + by apply driver_posts_all.
    + eexists (_ ++ schedule). by rewrite run_app.
  - by apply Hreceive.
  - by exists [].
Qed.

(** ** Drain before stop *)

(** C4, as the code has it: when the commands posted before [AwaitFinish]
    hold no Stop command, every schedule can go on until [AwaitFinish]
    returns, and [AwaitFinish] returns only when the worker has ended with an
    empty queue: the executed commands are the posted ones, the commands
    their executions posted, and the Stop command of [AwaitFinish], which
    comes last. *)
Theorem await_finish_drains (intSize : Z) (script : list Command) (schedule : list Thread) :
  Forall notStop script →
  let s := run intSize schedule (boot script) in
  (∃ more, driver (run intSize more s) = Returned) ∧
  (driver s = Returned →
   worker s = WorkerDone ∧ queue (loop s) = [] ∧
   (∃ l, executed s = l ++ [stopCommand] ∧ l ≡ₚ script ++ workerPosts intSize s) ∧
   Forall (λ cmd, cmd ∈ executed s) script ∧
   posted s ≡ₚ executed s).
Proof.
  intros Hscript s.
  pose proof (Safe_run intSize schedule _ (Safe_boot script)) as Hsafe.
  pose proof (Coherent_run intSize script schedule Hscript _
                (Safe_boot script) (Coherent_boot intSize script)) as H.
  pose proof (Logged_run intSize schedule _ (Safe_boot script)
                (Logged_boot script)) as Hlog.
  fold s in Hsafe, H, Hlog.
  split; [by eapply Coherent_returns|].
  intros Hd. unfold Coherent in H. rewrite Hd in H.
  destruct H as (Hw & Hq & _ & l & Hex & Hshuffle).
  apply Interleave_Permutation in Hshuffle.
  split; [done|]. split; [done|]. split; [by eauto|]. split.
  - apply Forall_forall. intros cmd Hin. rewrite Hex, Hshuffle.
    apply elem_of_app. left. apply elem_of_app. by left.
  - unfold Logged, pending, current in Hlog. rewrite Hw, Hq in Hlog.
    by rewrite !app_nil_r in Hlog.
Qed.

Lemma await_finish_drains_witness :
  let s := run 64 driverFirst (boot demo) in
  (∃ more, driver (run 64 more s) = Returned) ∧
  (driver s = Returned →
   worker s = WorkerDone ∧ queue (loop s) = [] ∧
   (∃ l, executed s = l ++ [stopCommand] ∧ l ≡ₚ demo ++ workerPosts 64 s) ∧
   Forall (λ cmd, cmd ∈ executed s) demo ∧
   posted s ≡ₚ executed s).
Proof.
  apply (await_finish_drains 64 demo driverFirst).
  repeat constructor.
Defined.

Example await_finish_has_returned :
  driver (run 64 driverFirst (boot demo)) = Returned.
Proof. reflexivity. Qed.

(** C4 fails as stated: with a Stop command among the posted commands the
    worker can end before a later command is posted; [AwaitFinish] returns
    and that command is still in the queue. *)
Lemma await_finish_after_early_stop :
  let s := run 64 stopFirst (boot [stopCommand; printCommand "x"]) in
  driver s = Returned ∧
  executed s = [stopCommand] ∧
  queue (loop s) = [printCommand "x"; stopCommand] ∧
  printCommand "x" ∉ executed s.
Proof.
  split; [reflexivity|]. split; [reflexivity|]. split; [reflexivity|].
  vm_compute. intros H. apply list_elem_of_In in H. simpl in H.
  destruct H as [H|[]]. discriminate.
Qed.

(** ** First in, first out *)

Lemma filter_notStop_all (l : list Command) :
  Forall notStop l → filter notStop l = l.
Proof.
  induction 1 as [|cmd l Hcmd _ IH]; [done|].
  rewrite filter_cons_True by done. by rewrite IH.
Qed.

Lemma filter_notStop_snoc_stop (l : list Command) :
  Forall notStop l → filter notStop (l ++ [stopCommand]) = l.
Proof.
  intros Hl. rewrite filter_app, filter_notStop_all by done.
  rewrite filter_cons_False by apply notStop_stop. apply app_nil_r.
Qed.

Lemma postsOf_silent (intSize : Z) (cmd : Command) :
  Forall (silent intSize) (postsOf intSize cmd).
Proof. destruct cmd; repeat constructor. Qed.

Lemma flat_map_silent (intSize : Z) (l : list Command) :
  Forall (silent intSize) l → flat_map (postsOf intSize) l = [].
Proof.
  induction 1 as [|cmd l Hcmd _ IH]; [done|]. simpl. by rewrite Hcmd, IH.
Qed.

Lemma flat_map_posts_filter (intSize : Z) (l : list Command) :
  flat_map (postsOf intSize) (filter notStop l) = flat_map (postsOf intSize) l.
Proof.
  induction l as [|cmd l IH]; [done|].
  destruct cmd; rewrite ?filter_cons_True, ?filter_cons_False
    by (try apply notStop_stop; done); simpl; by rewrite IH.
Qed.

(** When no command of the script posts anything, the shuffle has a single
    strand. *)
Lemma fifo_silent (intSize : Z) (a ex : list Command) (j : nat) :
  Forall (silent intSize) a →
  Interleave a (take j (flat_map (postsOf intSize) ex)) (filter notStop ex) →
  filter notStop ex = a.
Proof.
  intros Ha Hshuffle.
  assert (Hposts : Forall (silent intSize) (flat_map (postsOf intSize) ex)).
  { clear. induction ex as [|cmd ex IH]; simpl; [done|].
    apply Forall_app. split; [apply postsOf_silent | done]. }
  pose proof (Interleave_Forall _ _ _ _ Hshuffle Ha (Forall_take _ _ _ Hposts)) as Hl.
  apply flat_map_silent in Hl. rewrite flat_map_posts_filter in Hl.
  rewrite Hl, take_nil in Hshuffle. by apply Interleave_nil_r_inv.
Qed.

(** A shuffle cut in two is a shuffle of the prefixes followed by a shuffle
    of what is left of them. *)
Lemma Interleave_split {A : Type} (l1 : list A) : ∀ a b l2,
  Interleave a b (l1 ++ l2) →
  ∃ i j, (i ≤ length a)%nat ∧ (j ≤ length b)%nat ∧
    Interleave (take i a) (take j b) l1 ∧
    Interleave (drop i a) (drop j b) l2.
Proof.
  induction l1 as [|x l1 IH]; intros a b l2 H.
  - exists 0%nat, 0%nat. rewrite !take_0, !drop_0.
    repeat split; [lia | lia | constructor | done].
  - simpl in H. inversion H as [|y a' b' l' H'|y a' b' l' H']; subst.
    + destruct (IH _ _ _ H') as (i & j & Hi & Hj & Htake & Hdrop).
      exists (S i), j. simpl. repeat split; [lia | lia | by constructor | done].
    + destruct (IH _ _ _ H') as (i & j & Hi & Hj & Htake & Hdrop).
      exists i, (S j). simpl. repeat split; [lia | lia | by constructor | done].
Qed.

(** What is executed and what is pending divide the driver's posts and the
    worker's between them, each in its order. *)
Lemma Coherent_order (intSize : Z) (script : list Command) (s : System) :
  Forall notStop script → Coherent intSize script s →
  ∃ k j,
    Interleave (take k script) (take j (workerPosts intSize s))
      (filter notStop (executed s)) ∧
    Interleave (drop k (postedByDriver script s))
      (drop j (workerPosts intSize s)) (filter notStop (pending s)).
Proof.
  intros Hscript H. unfold Coherent in H. unfold postedByDriver.
  pose proof (workerPosts_notStop intSize s) as Hposts.
  assert (Hwhole : ∀ l, executed s = l ++ [stopCommand] → pending s = [] →
            Interleave script (workerPosts intSize s) l →
            ∃ k j,
              Interleave (take k script) (take j (workerPosts intSize s))
                (filter notStop (executed s)) ∧
              Interleave (drop k script) (drop j (workerPosts intSize s))
                (filter notStop (pending s))).
  { intros l -> -> Hshuffle.
    rewrite filter_notStop_snoc_stop by (by eapply Interleave_Forall).
    exists (length script), (length (workerPosts intSize s)).
    rewrite !firstn_all, !drop_all. split; [done | constructor]. }
  destruct (driver s) as [rest| |].
  - destruct H as (_ & _ & done & -> & Hshuffle).
    apply Forall_app in Hscript as [Hdone _].
    pose proof (Interleave_Forall _ _ _ _ Hshuffle Hdone Hposts) as Hline.
    apply Forall_app in Hline as [Hex Hpend].
    apply Interleave_split in Hshuffle as (i & j & Hi & _ & Htake & Hdrop).
    rewrite !filter_notStop_all by done.
    exists i, j. rewrite take_app_le by done.
    rewrite length_app, Nat.add_sub, take_app_length. done.
  - destruct (isStopped (loop s)).
    + destruct H as (Hw & Hq & l & Hex & Hshuffle).
      apply (Hwhole l); [done| |done].
      unfold pending, current. rewrite Hq. by destruct Hw as [-> | ->].
    + destruct H as (_ & waiting & Hpending & Hshuffle).
      pose proof (Interleave_Forall _ _ _ _ Hshuffle Hscript Hposts) as Hline.
      apply Forall_app in Hline as [Hex Hwaiting].
      apply Interleave_split in Hshuffle as (i & j & _ & _ & Htake & Hdrop).
      rewrite Hpending, filter_notStop_snoc_stop by done.
      rewrite filter_notStop_all by done. eauto.
  - destruct H as (Hw & Hq & _ & l & Hex & Hshuffle).
    apply (Hwhole l); [done| |done].
    unfold pending, current. by rewrite Hq, Hw.
Qed.

(** C5: when the driver posts commands none of which is a Stop command, at
    every moment of every schedule the commands executed so far, the Stop
    command of [AwaitFinish] apart, are the first [k] commands of the script
    in the order of posting, shuffled with the first [j] commands that the
    executions themselves have posted, and the commands posted and not yet
    executed are pending in that same order; every schedule can go on until
    all the commands of the script have been executed, in the order of
    posting. The executed commands are exactly the first [k] of the script
    when its commands post nothing. *)
Theorem commands_execute_in_posting_order
    (intSize : Z) (script : list Command) (schedule : list Thread) :
  Forall notStop script →
  let s := run intSize schedule (boot script) in
  (∃ k j,
     Interleave (take k script) (take j (workerPosts intSize s))
       (filter notStop (executed s)) ∧
     Interleave (drop k (postedByDriver script s))
       (drop j (workerPosts intSize s)) (filter notStop (pending s)) ∧
     (Forall (silent intSize) script →
      filter notStop (executed s) = take k script)) ∧
  (∃ more,
     let s' := run intSize more s in
     driver s' = Returned ∧
     Interleave script (workerPosts intSize s') (filter notStop (executed s')) ∧
     (Forall (silent intSize) script → filter notStop (executed s') = script)).
Proof.
  intros Hscript s.
  assert (Hsafe : Safe s) by apply Safe_run, Safe_boot.
  assert (H : Coherent intSize script s)
    by (apply Coherent_run; [done | apply Safe_boot | apply Coherent_boot]).
  split.
  - destruct (Coherent_order intSize script s Hscript H)
      as (k & j & Htake & Hdrop).
    exists k, j. split; [done|]. split; [done|].
    intros Hsilent. eapply fifo_silent; [|done]. by apply Forall_take.
  - destruct (Coherent_returns intSize script s Hscript Hsafe H)
      as [more Hd].
    exists more. intros s'. split; [done|].
    assert (H' : Coherent intSize script s') by by apply Coherent_run.
    unfold Coherent in H'. fold s' in Hd. rewrite Hd in H'.
    destruct H' as (_ & _ & _ & l & Hex & Hshuffle).
    assert (Hl : filter notStop (executed s') = l).
    { rewrite Hex. apply filter_notStop_snoc_stop.
      eapply Interleave_Forall; [done..|apply workerPosts_notStop]. }
    rewrite Hl. split; [done|].
    intros Hsilent. rewrite <- Hl.
    apply (fifo_silent intSize script (executed s')
             (length (workerPosts intSize s'))); [done|].
    rewrite Hl. unfold workerPosts in *. by rewrite firstn_all.
Qed.

Lemma commands_execute_in_posting_order_witness :
  let s := run 64 workerFirst (boot demo) in
  (∃ k j,
     Interleave (take k demo) (take j (workerPosts 64 s))
       (filter notStop (executed s)) ∧
     Interleave (drop k (postedByDriver demo s))
       (drop j (workerPosts 64 s)) (filter notStop (pending s)) ∧
     (Forall (silent 64) demo → filter notStop (executed s) = take k demo)) ∧
  (∃ more,
     let s' := run 64 more s in
     driver s' = Returned ∧
     Interleave demo (workerPosts 64 s') (filter notStop (executed s')) ∧
     (Forall (silent 64) demo → filter notStop (executed s') = demo)).
Proof.
  apply (commands_execute_in_posting_order 64 demo workerFirst).
  repeat constructor.
Defined.

(** ** The scenario of the three lines *)

Lemma closedUnder_step (intSize : Z) (states : list System) (t : Thread) (s : System) :
  closedUnder intSize states = true → s ∈ states →
  default s (step intSize t s) ∈ states.
Proof.
  unfold closedUnder. rewrite forallb_forall. intros Hclosed Hs.
  apply list_elem_of_In, Hclosed in Hs. rewrite forallb_forall in Hs.
  eapply bool_decide_eq_true_1, Hs. unfold successors.
  destruct t; simpl; auto.
Qed.

Lemma closedUnder_run (intSize : Z) (states : list System) (schedule : list Thread) :
  closedUnder intSize states = true → ∀ s,
  s ∈ states → run intSize schedule s ∈ states.
Proof.
  intros Hclosed. induction schedule as [|t schedule IH]; intros s Hs; [done|].
  simpl. by apply IH, closedUnder_step.
Qed.

Lemma demoStates_complete (intSize : Z) (schedule : list Thread) :
  intSize = 32 ∨ intSize = 64 →
  run intSize schedule (boot demo) ∈ demoStates intSize.
Proof.
  assert (Hcheck : ∀ w,
    closedUnder w (demoStates w) && bool_decide (boot demo ∈ demoStates w) = true →
    run w schedule (boot demo) ∈ demoStates w).
  { intros w [Hclosed Hboot%bool_decide_eq_true_1]%andb_prop.
    by apply closedUnder_run. }
  intros [-> | ->]; apply Hcheck; vm_compute; reflexivity.
Qed.

Lemma demoStates_output (intSize : Z) (s : System) :
  intSize = 32 ∨ intSize = 64 →
  s ∈ demoStates intSize →
  demoOutput s = true ∧ demoHistory intSize s = true.
Proof.
  intros Hsize Hs. apply list_elem_of_In in Hs. revert s Hs.
  assert (Hall : forallb (λ s, demoOutput s && demoHistory intSize s)
                   (demoStates intSize) = true)
    by (destruct Hsize as [-> | ->]; vm_compute; reflexivity).
  intros s Hs. rewrite forallb_forall in Hall.
  by apply andb_prop, Hall.
Qed.

Lemma sumAhead_step (intSize : Z) (schedule : list Thread) (t : Thread) :
  intSize = 32 ∨ intSize = 64 →
  sumAhead (run intSize (schedule ++ [t]) (boot demo)) =
    sumAhead (run intSize schedule (boot demo)) ||
    sumFirst (run intSize (schedule ++ [t]) (boot demo)).
Proof.
  intros Hsize. rewrite run_app. simpl.
  destruct (demoStates_output intSize _ Hsize
              (demoStates_complete intSize schedule Hsize)) as [_ Hhist].
  unfold demoHistory, successors in Hhist. rewrite forallb_forall in Hhist.
  apply Bool.eqb_prop, Hhist. destruct t; simpl; auto.
Qed.

(** The sum is ahead exactly when the schedule has passed a moment at which
    the Add command had executed with [print done] not posted. *)
Lemma sumAhead_history (intSize : Z) (schedule : list Thread) :
  intSize = 32 ∨ intSize = 64 →
  sumAhead (run intSize schedule (boot demo)) = true ↔
  ∃ n, sumFirst (run intSize (take n schedule) (boot demo)) = true.
Proof.
  intros Hsize. induction schedule as [|t schedule IH] using rev_ind.
  - split; [done|]. intros [n Hn]. by rewrite take_nil in Hn.
  - rewrite sumAhead_step by done. rewrite orb_true_iff, IH. split.
    + intros [[n Hn]|Hlast].
      * exists (n `min` length schedule)%nat.
        rewrite take_app_le by lia.
        destruct (decide (n ≤ length schedule)%nat).
        -- by rewrite Nat.min_l.
        -- rewrite Nat.min_r by lia. rewrite take_ge in Hn by lia.
           by rewrite firstn_all.
      * exists (S (length schedule)).
        rewrite take_ge by (rewrite length_app; simpl; lia). done.
    + intros [n Hn].
      destruct (decide (n ≤ length schedule)%nat).
      * left. exists n. by rewrite take_app_le in Hn.
      * right. rewrite take_ge in Hn by (rewrite length_app; simpl; lia).
        done.
Qed.

(** C3, as the code has it: for the lines [print hello], [add 2 3],
    [print done] and the shutdown that follows them, every schedule can go on
    until [AwaitFinish] returns, and the output is then [hello], [5], [done]
    when the schedule has let the worker execute the Add command before
    [print done] was posted, and [hello], [done], [5] when it has not: the
    Print command of the sum is posted when the Add command executes, behind
    what is queued by then. *)
Theorem demo_prints_sum_and_done_in_either_order
    (intSize : Z) (script : list Command) (schedule : list Thread) :
  intSize = 32 ∨ intSize = 64 →
  scriptOf intSize demoLines = Returns script →
  let s := run intSize schedule (boot script) in
  (∃ more, driver (run intSize more s) = Returned) ∧
  (driver s = Returned →
   ((∃ n, sumFirst (run intSize (take n schedule) (boot script)) = true) ∧
    stdout s = ["hello"; "5"; "done"]) ∨
   ((∀ n, sumFirst (run intSize (take n schedule) (boot script)) = false) ∧
    stdout s = ["hello"; "done"; "5"])).
Proof.
  intros Hsize Hscript.
  assert (script = demo) as ->.
  { destruct Hsize as [-> | ->]; vm_compute in Hscript; by simplify_eq. }
  intros s. split.
  - apply (Coherent_returns intSize demo); [by repeat constructor| |].
    + apply Safe_run, Safe_boot.
    + apply Coherent_run;
        [by repeat constructor | apply Safe_boot | apply Coherent_boot].
  - destruct (demoStates_output intSize _ Hsize
                (demoStates_complete intSize schedule Hsize)) as [Hout _].
    apply bool_decide_eq_true_1 in Hout. intros Hd. specialize (Hout Hd).
    pose proof (sumAhead_history intSize schedule Hsize) as Hhist.
    fold s in Hout, Hhist. destruct (sumAhead s).
    + left. split; [by apply Hhist | done].
    + right. split; [|done]. intros n.
      destruct (sumFirst _) eqn:Hn; [|done].
      assert (false = true) by (apply Hhist; eauto). done.
Qed.

Lemma demo_prints_sum_and_done_in_either_order_witness :
  let s := run 64 workerFirst (boot demo) in
  (∃ more, driver (run 64 more s) = Returned) ∧
  (driver s = Returned →
   ((∃ n, sumFirst (run 64 (take n workerFirst) (boot demo)) = true) ∧
    stdout s = ["hello"; "5"; "done"]) ∨
   ((∀ n, sumFirst (run 64 (take n workerFirst) (boot demo)) = false) ∧
    stdout s = ["hello"; "done"; "5"])).
Proof.
  apply (demo_prints_sum_and_done_in_either_order 64 demo workerFirst).
  - right. reflexivity.
  - vm_compute. reflexivity.
Defined.

(** C3 fails as stated: when the three commands and the Stop command of
    [AwaitFinish] are posted before the worker executes the Add command, the
    Print command of the sum is spliced in before the Stop command, behind
    [print done], and the output is [hello], [done], [5]. *)
Lemma demo_prints_done_before_sum :
  scriptOf 64 demoLines = Returns demo ∧
  driver (run 64 driverFirst (boot demo)) = Returned ∧
  stdout (run 64 driverFirst (boot demo)) = ["hello"; "done"; "5"] ∧
  stdout (run 64 driverFirst (boot demo)) ≠ ["hello"; "5"; "done"].
Proof.
  split; [vm_compute; reflexivity|]. split; [vm_compute; reflexivity|].
  split; [vm_compute; reflexivity|]. vm_compute. discriminate.
Qed.

Example demo_prints_sum_before_done :
  driver (run 64 workerFirst (boot demo)) = Returned ∧
  stdout (run 64 workerFirst (boot demo)) = ["hello"; "5"; "done"].
Proof. split; vm_compute; reflexivity. Qed.


(** * Further properties *)

(** ** The queue on its own *)

Lemma push_cons (c : Command) (rest : commandsQueue) (cmd : Command) :
  rest ≠ [] → push (c :: rest) cmd = c :: push rest cmd.
Proof.
  induction rest as [|x rest _] using rev_ind; [done|]. intros _.
  rewrite app_comm_cons. destruct (isStop x) eqn:Hx.
  - apply isStop_true in Hx as ->. by rewrite !push_snoc_stop.
  - by rewrite !push_snoc_other.
Qed.

Lemma filter_notStop_push (q : commandsQueue) (cmd : Command) :
  filter notStop (push q cmd) = filter notStop q ++ filter notStop [cmd].
Proof.
  induction q as [|c q _] using rev_ind; [done|].
  destruct (isStop c) eqn:Hc.
  - apply isStop_true in Hc as ->. rewrite push_snoc_stop.
    change [cmd; stopCommand] with ([cmd] ++ [stopCommand]).
    rewrite !filter_app.
    rewrite (filter_cons_False notStop stopCommand []) by apply notStop_stop.
    rewrite filter_nil. by rewrite !app_nil_r.
  - rewrite push_snoc_other by done.
    change [c; cmd] with ([c] ++ [cmd]). by rewrite !filter_app, app_assoc.
Qed.

Lemma pulls_all (q : commandsQueue) : pulls (length q) q = Some (q, []).
Proof.
  induction q as [|c q IH]; [done|].
  cbn [length pulls]. by rewrite pull_cons, IH.
Qed.

Lemma foldl_push_notStop (cmds : list Command) : ∀ q,
  Forall notStop q → Forall notStop cmds → foldl push q cmds = q ++ cmds.
Proof.
  induction cmds as [|cmd cmds IH]; intros q Hq Hcmds; simpl.
  - by rewrite app_nil_r.
  - apply Forall_cons in Hcmds as [Hcmd Hcmds].
    rewrite push_no_stop by done. rewrite IH; [by rewrite <- app_assoc| |done].
    apply Forall_app. split; [done|]. by apply Forall_singleton.
Qed.

(** X1: [peek] returns nil exactly on the empty queue and the final element
    of the queue otherwise. *)
Theorem peek_is_the_last_element (q : commandsQueue) :
  peek q = last q ∧ (peek q = None ↔ q = []).
Proof.
  induction q as [|cmd q _] using rev_ind; [done|].
  rewrite peek_snoc, last_snoc. split; [done|].
  split; [done|]. intros E. symmetry in E. by apply app_cons_not_nil in E.
Qed.

(** X2: whatever is pushed and whatever the queue holds, [push] adds exactly
    the pushed command: the new queue is the old one and the command, up to
    their order, and the commands other than Stop commands keep their order
    with the new one behind them. *)
Theorem push_adds_exactly_one (q : commandsQueue) (cmd : Command) :
  push q cmd ≡ₚ cmd :: q ∧
  length (push q cmd) = S (length q) ∧
  filter notStop (push q cmd) = filter notStop q ++ filter notStop [cmd].
Proof.
  split; [|split].
  - rewrite push_Permutation. by rewrite Permutation_app_comm.
  - apply length_push.
  - apply filter_notStop_push.
Qed.

(** X3: a [pull] that follows a [push] on a queue that was not empty returns
    the element that was first before the push, and the push has only
    changed the rest; the one exception is the queue holding a single Stop
    command, where the pushed command is returned ahead of it. *)
Theorem pull_after_push (c : Command) (rest : commandsQueue) (cmd : Command) :
  pull (push (c :: rest) cmd) =
    if bool_decide (rest = [] ∧ c = stopCommand)
    then Some (cmd, [stopCommand])
    else Some (c, push rest cmd).
Proof.
  destruct rest as [|x rest].
  - destruct c; by rewrite ?bool_decide_eq_true_2, ?bool_decide_eq_false_2
      by (try intros [_ [=]]; done).
  - rewrite push_cons by done.
    by rewrite bool_decide_eq_false_2 by (intros [[=] _]).
Qed.

(** X4: once a Stop command is the last element it stays the last element
    under any further pushes, and pushes of commands that are not Stop
    commands line up before it in the order they were pushed. *)
Theorem stop_stays_last (q cmds : list Command) :
  peek (foldl push (q ++ [stopCommand]) cmds) = Some stopCommand ∧
  (Forall notStop cmds →
   foldl push (q ++ [stopCommand]) cmds = q ++ cmds ++ [stopCommand]).
Proof.
  split.
  - assert (Hgen : ∀ q', peek q' = Some stopCommand →
              peek (foldl push q' cmds) = Some stopCommand).
    { induction cmds as [|cmd cmds IH]; intros q' Hq'; [done|].
      simpl. apply IH. rewrite peek_push. by rewrite bool_decide_eq_true_2. }
    apply Hgen, peek_snoc.
  - revert q. induction cmds as [|cmd cmds IH]; intros q Hcmds; [done|].
    apply Forall_cons in Hcmds as [_ Hcmds]. simpl.
    rewrite push_snoc_stop.
    change [cmd; stopCommand] with ([cmd] ++ [stopCommand]).
    rewrite app_assoc, IH by done. by rewrite <- app_assoc.
Qed.

(** X5: commands that are not Stop commands, pushed onto the empty queue, come
    back from as many calls of [pull] in the order they were pushed, which
    leaves the queue empty; one more [pull] panics. *)
Theorem push_pull_round_trip (cmds : list Command) :
  Forall notStop cmds →
  pulls (length cmds) (foldl push [] cmds) = Some (cmds, []) ∧
  pulls (S (length cmds)) (foldl push [] cmds) = None.
Proof.
  intros Hcmds. rewrite foldl_push_notStop by done. simpl app.
  split; [apply pulls_all|].
  clear Hcmds. induction cmds as [|c cmds IH]; [done|].
  change (pulls (S (length (c :: cmds))) (c :: cmds))
    with (match pulls (S (length cmds)) cmds with
          | None => None
          | Some (l, q) => Some (c :: l, q)
          end).
  by rewrite IH.
Qed.

Lemma push_pull_round_trip_witness :
  pulls (length demo) (foldl push [] demo) = Some (demo, []) ∧
  pulls (S (length demo)) (foldl push [] demo) = None.
Proof. apply (push_pull_round_trip demo). repeat constructor. Defined.

(** X6: whatever is pushed, in whatever order, the commands that are not Stop
    commands stay in the queue in the order they were pushed, behind those
    that were there before. *)
Theorem pushes_keep_posting_order (q cmds : list Command) :
  filter notStop (foldl push q cmds) = filter notStop q ++ filter notStop cmds.
Proof.
  revert q. induction cmds as [|cmd cmds IH]; intros q; simpl.
  - by rewrite app_nil_r.
  - rewrite IH, filter_notStop_push, <- app_assoc. f_equal.
    change (cmd :: cmds) with ([cmd] ++ cmds). by rewrite filter_app.
Qed.

(** ** The event loop under every schedule *)

Lemma Execute_stdout (intSize : Z) (cmd : Command) (l : EventLoop) (out : list string) :
  snd (Execute intSize cmd l out) = out ++ printsOf intSize cmd.
Proof. destruct cmd; simpl; by rewrite ?app_nil_r. Qed.

Lemma Execute_stopSignal (intSize : Z) (cmd : Command) (l : EventLoop) (out : list string) :
  stopSignal (fst (Execute intSize cmd l out)) = stopSignal l.
Proof. by destruct cmd. Qed.

Lemma Execute_isStopped (intSize : Z) (cmd : Command) (l : EventLoop) (out : list string) :
  isStopped (fst (Execute intSize cmd l out)) = isStop cmd || isStopped l.
Proof. by destruct cmd. Qed.

(** A property that the first state has and every step keeps holds after
    every schedule. *)
Lemma run_invariant (intSize : Z) (P : System → Prop) :
  (∀ t s s', Safe s → P s → step intSize t s = Some s' → P s') →
  ∀ schedule s, Safe s → P s → P (run intSize schedule s).
Proof.
  intros Hstep. induction schedule as [|t schedule IH]; intros s Hsafe H; [done|].
  simpl. destruct (step intSize t s) as [s'|] eqn:Hs; simpl; [|by apply IH].
  apply IH; [by eapply Safe_step | by eapply Hstep].
Qed.

Lemma handover_inv (s s' : System) :
  handover s = Some s' →
  worker s = AtSend ∧ driver s = AtReceive ∧
  s' = {| loop := {| queue := queue (loop s);
                     stopSignal := S (stopSignal (loop s));
                     isStopped := isStopped (loop s) |};
          stdout := stdout s; worker := WorkerDone; driver := Returned;
          executed := executed s; posted := posted s |}.
Proof.
  unfold handover. destruct (worker s), (driver s); intros H; by simplify_eq.
Qed.

Lemma stepDriver_inv (s s' : System) :
  stepDriver s = Some s' →
  (∃ cmd next, s' = postBy cmd next s ∧ next ≠ Returned ∧
     ∃ rest, driver s = Posting rest) ∨
  handover s = Some s'.
Proof.
  unfold stepDriver. intros H.
  destruct (driver s) as [[|cmd rest]| |] eqn:Hd; simplify_eq; eauto 10.
Qed.

Lemma stepWorker_inv (intSize : Z) (s s' : System) :
  Safe s → stepWorker intSize s = Some s' →
  (worker s = AtLoopTest ∧
   s' = setWorker (if isStopped (loop s) then AtSend else AtEmptyTest) s) ∨
  (worker s = AtEmptyTest ∧
   s' = setWorker (if decide (length (queue (loop s)) = 0%nat)
                   then AtLoopTest else AtPull) s) ∨
  (∃ cmd rest, worker s = AtPull ∧ queue (loop s) = cmd :: rest ∧
     s' = {| loop := {| queue := rest; stopSignal := stopSignal (loop s);
                        isStopped := isStopped (loop s) |};
             stdout := stdout s; worker := AtExecute cmd; driver := driver s;
             executed := executed s; posted := posted s |}) ∨
  (∃ cmd, worker s = AtExecute cmd ∧
     s' = {| loop := fst (Execute intSize cmd (loop s) (stdout s));
             stdout := snd (Execute intSize cmd (loop s) (stdout s));
             worker := AtLoopTest; driver := driver s;
             executed := executed s ++ [cmd];
             posted := posted s ++ postsOf intSize cmd |}) ∨
  handover s = Some s'.
Proof.
  intros [_ Hsafe] H. unfold stepWorker in H.
  destruct (worker s) as [| | |cmd| | |] eqn:Hw; try done.
  - left. by simplify_eq.
  - right. left. by simplify_eq.
  - destruct (queue (loop s)) as [|cmd rest] eqn:Hq; [by destruct Hsafe|].
    simpl in H. simplify_eq. right. right. left. eauto.
  - right. right. right. left. exists cmd. split; [done|].
    destruct (Execute intSize cmd (loop s) (stdout s)) as [l out].
    by simplify_eq.
  - by repeat right.
Qed.

Lemma Output_step (intSize : Z) (t : Thread) (s s' : System) :
  Safe s → stdout s = flat_map (printsOf intSize) (executed s) →
  step intSize t s = Some s' →
  stdout s' = flat_map (printsOf intSize) (executed s').
Proof.
  intros Hsafe H Hstep. destruct t; simpl in Hstep.
  - apply stepDriver_inv in Hstep as [(cmd & next & -> & _)|Hh]; [done|].
    by apply handover_inv in Hh as (_ & _ & ->).
  - apply stepWorker_inv in Hstep
      as [[_ ->]|[[_ ->]|[(cmd & rest & _ & _ & ->)|[(cmd & _ & ->)|Hh]]]];
      try done.
    + simpl. rewrite Execute_stdout, flat_map_app, H. simpl.
      by rewrite app_nil_r.
    + by apply handover_inv in Hh as (_ & _ & ->).
Qed.

(** X7: under every schedule and for every script, the standard output is
    the text of the Print commands executed so far, in the order of their
    execution; Add and Stop commands write nothing themselves. *)
Theorem output_is_the_executed_prints
    (intSize : Z) (script : list Command) (schedule : list Thread) :
  let s := run intSize schedule (boot script) in
  stdout s = flat_map (printsOf intSize) (executed s) ∧
  (∀ cmd, printsOf intSize cmd =
            match cmd with printCommand arg => [arg] | _ => [] end).
Proof.
  split; [|by intros []].
  apply (run_invariant intSize
           (λ s, stdout s = flat_map (printsOf intSize) (executed s)));
    [intros; by eapply Output_step | apply Safe_boot | done].
Qed.

(** X8: under every schedule and for every script, each command handed to
    [push], by the driver or by an executing command, is either executed or
    still pending, and none is executed that was not posted: nothing is
    lost, nothing runs twice. *)
Theorem nothing_lost_nothing_twice
    (intSize : Z) (script : list Command) (schedule : list Thread) :
  let s := run intSize schedule (boot script) in
  posted s ≡ₚ executed s ++ pending s ∧
  (length (executed s) ≤ length (posted s))%nat.
Proof.
  intros s.
  pose proof (Logged_run intSize schedule _ (Safe_boot script)
                (Logged_boot script)) as H.
  fold s in H. unfold Logged in H. split; [done|].
  rewrite H, length_app. lia.
Qed.

Lemma Halting_step (intSize : Z) (t : Thread) (s s' : System) :
  Safe s → Halting s → step intSize t s = Some s' → Halting s'.
Proof.
  intros Hsafe H Hstep. unfold Halting in *. destruct t; simpl in Hstep.
  - apply stepDriver_inv in Hstep as [(cmd & next & -> & _)|Hh]; [done|].
    apply handover_inv in Hh as (Hw & _ & ->). simpl.
    rewrite Hw in H. destruct (isStopped (loop s)); [|by destruct H].
    destruct H as [H _]. auto.
  - apply stepWorker_inv in Hstep
      as [[Hw ->]|[[Hw ->]|[(cmd & rest & Hw & _ & ->)|[(cmd & Hw & ->)|Hh]]]];
      try done; simpl; rewrite ?Hw in H.
    + destruct (isStopped (loop s)); [destruct H as [H _]; auto|].
      destruct H as [H _]. done.
    + destruct (isStopped (loop s)); [by destruct H as [_ [?|[?|?]]]|].
      destruct H as [H _]. split; [done|]. by destruct (decide _).
    + destruct (isStopped (loop s)); [by destruct H as [_ [?|[?|?]]]|].
      by destruct H as [H _].
    + rewrite Execute_isStopped.
      destruct (isStopped (loop s)); [by destruct H as [_ [?|[?|?]]]|].
      destruct H as [H _]. rewrite orb_false_r.
      destruct (isStop cmd) eqn:Hcmd.
      * apply isStop_true in Hcmd as ->. eauto.
      * split; [|done]. apply Forall_app. split; [done|].
        by apply Forall_singleton.
    + apply handover_inv in Hh as (Hw & _ & ->). simpl.
      rewrite Hw in H. destruct (isStopped (loop s)); [|by destruct H].
      destruct H as [H _]. auto.
Qed.

(** X9: under every schedule and for every script, also one that holds Stop
    commands: the stopped flag is set exactly when a Stop command has
    executed; that Stop command is the last command executed and the only
    Stop command executed; and the worker leaves its loop only with the flag
    set. *)
Theorem stop_is_the_last_execution
    (intSize : Z) (script : list Command) (schedule : list Thread) :
  let s := run intSize schedule (boot script) in
  (isStopped (loop s) = true ↔ stopCommand ∈ executed s) ∧
  (isStopped (loop s) = true →
   ∃ l, executed s = l ++ [stopCommand] ∧ Forall notStop l) ∧
  (exited (worker s) = true → isStopped (loop s) = true).
Proof.
  intros s.
  assert (H : Halting s).
  { apply (run_invariant intSize Halting);
      [apply Halting_step | apply Safe_boot | by split]. }
  unfold Halting in H. destruct (isStopped (loop s)).
  - destruct H as [(l & Hl & Hnot) _]. split; [|by eauto].
    split; [|done]. intros _. rewrite Hl. apply elem_of_app. right.
    by apply list_elem_of_singleton.
  - destruct H as [Hnot Hrun]. split; [|split; [done|]].
    + split; [done|]. intros Hin.
      rewrite Forall_forall in Hnot. by apply Hnot in Hin.
    + by destruct (worker s).
Qed.

Lemma Signalled_step (intSize : Z) (t : Thread) (s s' : System) :
  Safe s → Signalled s → step intSize t s = Some s' → Signalled s'.
Proof.
  intros Hsafe [Hsig Hiff] Hstep.
  assert (Hhand : ∀ s'', handover s = Some s'' → Signalled s'').
  { intros s'' (Hw & Hd & ->)%handover_inv. split; simpl; [|done].
    rewrite Hd in Hsig. by rewrite Hsig. }
  destruct t; simpl in Hstep.
  - apply stepDriver_inv in Hstep
      as [(cmd & next & -> & Hnext & rest & Hd)|Hh]; [|by apply Hhand].
    split; simpl.
    + rewrite Hsig, Hd. by rewrite !decide_False.
    + rewrite <- Hiff, Hd. split; intros; done.
  - apply stepWorker_inv in Hstep
      as [[Hw ->]|[[Hw ->]|[(cmd & rest & Hw & _ & ->)|[(cmd & Hw & ->)|Hh]]]];
      try done; [| | | |by apply Hhand]; split; simpl;
      rewrite ?Execute_stopSignal; try done;
      (split; [intros Hd; apply Hiff in Hd; congruence|]).
    + by destruct (isStopped (loop s)).
    + by destruct (decide (length (queue (loop s)) = 0%nat)).
    + done.
    + done.
Qed.

(** X10: under every schedule and for every script, the termination signal
    passes through the channel at most once, it has passed exactly when
    [AwaitFinish] has returned, and [AwaitFinish] has returned exactly when
    the worker goroutine has ended. *)
Theorem signal_fires_once
    (intSize : Z) (script : list Command) (schedule : list Thread) :
  let s := run intSize schedule (boot script) in
  (stopSignal (loop s) ≤ 1)%nat ∧
  (stopSignal (loop s) = 1%nat ↔ driver s = Returned) ∧
  (driver s = Returned ↔ worker s = WorkerDone).
Proof.
  intros s.
  assert (H : Signalled s).
  { apply (run_invariant intSize Signalled);
      [apply Signalled_step | apply Safe_boot | by split]. }
  destruct H as [Hsig Hiff]. rewrite Hsig.
  destruct (decide (driver s = Returned)) as [Hd|Hd].
  - split; [lia|]. split; [|done]. split; auto.
  - split; [lia|]. split; [|done]. split; [discriminate | done].
Qed.

Lemma idle_round (intSize : Z) (s : System) :
  worker s = AtLoopTest → isStopped (loop s) = false → queue (loop s) = [] →
  run intSize [Worker; Worker] s = s.
Proof.
  destruct s as [[q sig stopped] out pc d ex po]. simpl.
  intros -> -> ->. reflexivity.
Qed.

(** X11: a worker at the head of its loop with the queue empty and the flag
    unset polls: it is not blocked, its step leads to the test of the queue
    and the step after it back to the head of the loop, with the whole state
    as it was; so any number of such rounds leaves the state as it is. *)
Theorem idle_worker_spins (intSize : Z) (s : System) (rounds : nat) :
  worker s = AtLoopTest → isStopped (loop s) = false → queue (loop s) = [] →
  (∃ s1, step intSize Worker s = Some s1 ∧ worker s1 = AtEmptyTest ∧
     step intSize Worker s1 = Some s) ∧
  run intSize (concat (replicate rounds [Worker; Worker])) s = s.
Proof.
  intros Hw Hstopped Hq. split.
  - destruct s as [[q sig stopped] out pc d ex po]. simpl in *. subst.
    eexists. split; [reflexivity|]. split; reflexivity.
  - induction rounds as [|rounds IH]; [done|].
    change (concat (replicate (S rounds) [Worker; Worker]))
      with ([Worker; Worker] ++ concat (replicate rounds [Worker; Worker])).
    by rewrite run_app, idle_round.
Qed.

Lemma idle_worker_spins_witness :
  (∃ s1, step 64 Worker (boot demo) = Some s1 ∧ worker s1 = AtEmptyTest ∧
     step 64 Worker s1 = Some (boot demo)) ∧
  run 64 (concat (replicate 3 [Worker; Worker])) (boot demo) = boot demo.
Proof. by apply (idle_worker_spins 64 (boot demo) 3). Defined.

Lemma exited_step (intSize : Z) (t : Thread) (s s' : System) :
  exited (worker s) = true → step intSize t s = Some s' →
  exited (worker s') = true ∧ executed s' = executed s ∧ stdout s' = stdout s ∧
  (length (queue (loop s)) ≤ length (queue (loop s')))%nat.
Proof.
  intros Hw Hstep.
  assert (Hhand : handover s = Some s' →
    exited (worker s') = true ∧ executed s' = executed s ∧ stdout s' = stdout s ∧
    (length (queue (loop s)) ≤ length (queue (loop s')))%nat).
  { by intros (_ & _ & ->)%handover_inv. }
  destruct t; simpl in Hstep.
  - apply stepDriver_inv in Hstep as [(cmd & next & -> & _)|Hh]; [|by auto].
    simpl. rewrite length_push. repeat split; [done | lia].
  - unfold stepWorker in Hstep. destruct (worker s); try done. by auto.
Qed.

(** X12: once the worker has left its loop nothing runs any more: whatever
    the driver still posts stays in the queue, which only grows, and neither
    the executed commands nor the output change. *)
Theorem nothing_runs_after_exit (intSize : Z) (s : System) (more : list Thread) :
  exited (worker s) = true →
  executed (run intSize more s) = executed s ∧
  stdout (run intSize more s) = stdout s ∧
  (length (queue (loop s)) ≤ length (queue (loop (run intSize more s))))%nat.
Proof.
  revert s. induction more as [|t more IH]; intros s Hw; [done|].
  simpl. destruct (step intSize t s) as [s'|] eqn:Hstep; simpl; [|by apply IH].
  destruct (exited_step intSize t s s' Hw Hstep) as (Hw' & <- & <- & Hlen).
  destruct (IH s' Hw') as (? & ? & ?). repeat split; [done..|lia].
Qed.

Lemma nothing_runs_after_exit_witness :
  let s := run 64 ([Driver] ++ replicate 5 Worker)
             (boot [stopCommand; printCommand "x"]) in
  executed (run 64 [Driver; Driver; Worker] s) = executed s ∧
  stdout (run 64 [Driver; Driver; Worker] s) = stdout s ∧
  (length (queue (loop s)) ≤
   length (queue (loop (run 64 [Driver; Driver; Worker] s))))%nat.
Proof.
  apply (nothing_runs_after_exit 64
           (run 64 ([Driver] ++ replicate 5 Worker)
              (boot [stopCommand; printCommand "x"]))
           [Driver; Driver; Worker]).
  reflexivity.
Defined.

(** ** The parser on every line *)

Lemma spaceFree_snoc (s : string) (c : ascii) :
  spaceFree s = true → asciiSpace c = false →
  spaceFree (s +:+ String c EmptyString) = true.
Proof.
  intros Hs Hc. induction s as [|x s IH]; simpl in *.
  - by rewrite Hc.
  - apply andb_prop in Hs as [-> Hs]. by rewrite IH.
Qed.

Lemma isEmpty_snoc (s : string) (c : ascii) :
  isEmpty (s +:+ String c EmptyString) = false.
Proof. by destruct s. Qed.

Lemma asciiSpace_high (c : ascii) : 128 ≤ byte c → asciiSpace c = false.
Proof.
  intros Hc. unfold asciiSpace.
  destruct (Z.leb_spec (byte c) 13), (Z.eqb_spec (byte c) 32);
    rewrite ?andb_false_r; simpl; lia.
Qed.

Lemma IsSpace_ascii (c : ascii) : IsSpace (byte c) = false → asciiSpace c = false.
Proof.
  unfold IsSpace, asciiSpace. intros H.
  do 9 (apply orb_false_elim in H as [H _]). done.
Qed.

Lemma leading_low (s0 sz lo hi : Z) :
  leading s0 = Some (sz, lo, hi) → 128 ≤ lo.
Proof.
  unfold leading.
  repeat (match goal with |- context [if ?b then _ else _] => destruct b end);
    intros [= <- <- <-]; lia.
Qed.

Lemma outside_false (lo hi b : Z) : outside lo hi b = false → lo ≤ b ≤ hi.
Proof.
  unfold outside. intros [?%Z.ltb_ge ?%Z.ltb_ge]%orb_false_elim. lia.
Qed.

(** An ASCII byte is a rune of its own. *)
Lemma DecodeRuneInString_ascii (c : ascii) (s : string) :
  byte c < 128 → DecodeRuneInString (String c s) = (byte c, 1%nat).
Proof. intros Hc. simpl. by destruct (Z.ltb_spec (byte c) 128); [|lia]. Qed.

(** The bytes of a rune after its first are no ASCII bytes. *)
Lemma DecodeRuneInString_high (c : ascii) (s : string) (r : Z) (width : nat) :
  DecodeRuneInString (String c s) = (r, width) →
  highBytes (width - 1) s = true.
Proof.
  simpl. destruct (byte c <? 128); [by intros [= <- <-]|].
  destruct (leading (byte c)) as [[[sz lo] hi]|] eqn:Hlead;
    [|by intros [= <- <-]].
  apply leading_low in Hlead.
  destruct s as [|c1 s]; [by intros [= <- <-]|].
  destruct (outside lo hi (byte c1)) eqn:H1; [by intros [= <- <-]|].
  apply outside_false in H1.
  assert ((128 <=? byte c1) = true) as Hc1 by (apply Z.leb_le; lia).
  destruct (sz =? 2); [intros [= <- <-]; simpl; by rewrite Hc1|].
  destruct s as [|c2 s]; [by intros [= <- <-]|].
  destruct (outside 128 191 (byte c2)) eqn:H2; [by intros [= <- <-]|].
  apply outside_false in H2.
  assert ((128 <=? byte c2) = true) as Hc2 by (apply Z.leb_le; lia).
  destruct (sz =? 3); [intros [= <- <-]; simpl; by rewrite Hc1, Hc2|].
  destruct s as [|c3 s]; [by intros [= <- <-]|].
  destruct (outside 128 191 (byte c3)) eqn:H3; [by intros [= <- <-]|].
  apply outside_false in H3.
  assert ((128 <=? byte c3) = true) as Hc3 by (apply Z.leb_le; lia).
  intros [= <- <-]. simpl. by rewrite Hc1, Hc2, Hc3.
Qed.

(** The fields of a line are not empty and hold no ASCII white space. *)
Lemma fieldsFrom_words (s : string) : ∀ skip field,
  highBytes skip s = true → spaceFree field = true →
  Forall (λ f, isEmpty f = false ∧ spaceFree f = true) (fieldsFrom s skip field).
Proof.
  induction s as [|c s IH]; intros skip field Hskip Hfield.
  - simpl. destruct (isEmpty field) eqn:He; [done|]. by repeat constructor.
  - destruct skip as [|skip].
    + cbn [fieldsFrom].
      pose proof (DecodeRuneInString_high c s) as Hhigh.
      destruct (DecodeRuneInString (String c s)) as [r width] eqn:Hdec.
      specialize (Hhigh r width eq_refl).
      destruct (IsSpace r) eqn:Hr.
      * destruct (isEmpty field) eqn:He; [by apply IH|].
        constructor; [done | by apply IH].
      * apply IH; [done|]. apply spaceFree_snoc; [done|].
        destruct (Z.ltb_spec (byte c) 128) as [Hc|Hc];
          [|by apply asciiSpace_high].
        rewrite DecodeRuneInString_ascii in Hdec by done.
        injection Hdec as <- _. by apply IsSpace_ascii.
    + cbn [fieldsFrom]. cbn [highBytes] in Hskip.
      apply andb_prop in Hskip as [Hc%Z.leb_le Hskip].
      apply IH; [done|]. destruct (isEmpty field); [done|].
      apply spaceFree_snoc; [done | by apply asciiSpace_high].
Qed.

Lemma fieldsFrom_nil (s : string) : ∀ skip field,
  fieldsFrom s skip field = [] ↔
  isEmpty field = true ∧ blankFrom s skip = true.
Proof.
  induction s as [|c s IH]; intros skip field.
  - simpl. destruct (isEmpty field); split; (try done); by intros [? ?].
  - destruct skip as [|skip]; cbn [fieldsFrom blankFrom].
    + destruct (DecodeRuneInString (String c s)) as [r width].
      destruct (IsSpace r); simpl.
      * destruct (isEmpty field) eqn:He.
        -- rewrite IH. simpl. tauto.
        -- split; [done | by intros [? ?]].
      * rewrite IH, isEmpty_snoc. split; by intros [? ?].
    + destruct (isEmpty field) eqn:He.
      * rewrite IH, He. tauto.
      * rewrite IH, isEmpty_snoc. split; by intros [? ?].
Qed.

Lemma Fields_nil (line : string) : Fields line = [] ↔ blank line = true.
Proof. unfold Fields, blank. rewrite fieldsFrom_nil. simpl. tauto. Qed.

Lemma parseDigits_range (maxVal : Z) (s : string) : ∀ n,
  0 ≤ n ≤ maxVal → 0 ≤ fst (parseDigits maxVal s n) ≤ maxVal.
Proof.
  induction s as [|c s IH]; intros n Hn; simpl; [done|].
  unfold digit. destruct (_ && _) eqn:Hd; simpl; [|lia].
  apply andb_prop in Hd as [Hlo%Z.leb_le Hhi%Z.leb_le].
  destruct (Z.ltb_spec maxVal (n * 10 + (Z.of_N (N_of_ascii c) - 48)));
    simpl; [lia|].
  apply IH. lia.
Qed.

Lemma Atoi_inRange (intSize : Z) (s : string) :
  0 < intSize → inRange intSize (fst (Atoi intSize s)).
Proof.
  intros Hw. unfold inRange.
  assert (Hp : 2 ^ intSize = 2 * 2 ^ (intSize - 1)).
  { rewrite <- Z.pow_succ_r by lia. f_equal. lia. }
  assert (0 < 2 ^ (intSize - 1)) by (apply Z.pow_pos_nonneg; lia).
  destruct s as [|c s]; [simpl; lia|].
  unfold Atoi. cbv zeta.
  match goal with |- context [ParseUint intSize ?b] => set (body := b) end.
  assert (Hun : 0 ≤ fst (ParseUint intSize body) ≤ 2 ^ intSize - 1).
  { unfold ParseUint. destruct body; simpl; [lia|].
    apply (parseDigits_range _ (String _ _)). lia. }
  destruct (ParseUint intSize body) as [un [[]|]]; simpl in *; try lia;
    destruct (Ascii.eqb c "-"); simpl;
    repeat (match goal with
            | |- context [?a <=? ?b] => destruct (Z.leb_spec a b); simpl
            | |- context [?a <? ?b] => destruct (Z.ltb_spec a b); simpl
            end); lia.
Qed.

(** X13: [parse] panics on exactly these lines: the blank ones (empty, or
    made of white space runes only, ASCII or not), [print] with no argument,
    and [add] with fewer than two arguments. *)
Theorem parse_panics_exactly (intSize : Z) (line : string) :
  parse intSize line = Panics ↔
  blank line = true ∨ Fields line = ["print"] ∨
  (∃ args, Fields line = "add" :: args ∧ (length args < 2)%nat).
Proof.
  unfold parse. rewrite <- Fields_nil.
  destruct (Fields line) as [|command args]; [split; auto|].
  destruct (String.eqb_spec command "print") as [->|Hp].
  - destruct args as [|a args].
    + split; auto.
    + split; [done|]. intros [?|[?|(? & ? & _)]]; done.
  - destruct (String.eqb_spec command "add") as [->|Ha].
    + destruct args as [|a1 [|a2 args]].
      * split; [|done]. intros _. right. right. exists []. split; [done|].
        simpl. lia.
      * split; [|done]. intros _. right. right. exists [a1]. split; [done|].
        simpl. lia.
      * split; [done|].
        intros [?|[?|(args' & [= <-] & Hlen)]]; try done. simpl in Hlen. lia.
    + split; [done|]. intros [?|[?|(? & ? & _)]]; by simplify_eq.
Qed.

(** X14: a command that [parse] returns is never a Stop command: it is a
    Print command whose text is one field of the line, not empty and with no
    blank, tab or line break in it, or an Add command whose two operands fit
    an [int]. *)
Theorem parse_returns_print_or_add (intSize : Z) (line : string) (cmd : Command) :
  0 < intSize →
  parse intSize line = Returns (Some cmd) →
  match cmd with
  | stopCommand => False
  | printCommand arg =>
      arg ∈ Fields line ∧ isEmpty arg = false ∧ spaceFree arg = true
  | addCommand arg1 arg2 => inRange intSize arg1 ∧ inRange intSize arg2
  end.
Proof.
  intros Hw. unfold parse.
  pose proof (fieldsFrom_words line 0 EmptyString eq_refl eq_refl) as Hwords.
  fold (Fields line) in Hwords.
  destruct (Fields line) as [|command args]; [done|].
  destruct (String.eqb command "print").
  - destruct args as [|a args]; [done|]. intros [= <-].
    apply Forall_cons in Hwords as [_ [[? ?] _]%Forall_cons].
    split; [|done]. apply list_elem_of_further, list_elem_of_here.
  - destruct (String.eqb command "add"); [|done].
    destruct args as [|a1 [|a2 args]]; try done. intros [= <-].
    split; by apply Atoi_inRange.
Qed.

Lemma parse_returns_print_or_add_witness :
  inRange 64 2 ∧ inRange 64 3.
Proof.
  apply (parse_returns_print_or_add 64 "add 2 3" (addCommand 2 3)).
  - lia.
  - vm_compute. reflexivity.
Defined.

(** X15: [parse] reads the first three fields of a line at most: two lines
    that agree on them give the same result, whatever follows. *)
Theorem parse_reads_three_fields (intSize : Z) (line1 line2 : string) :
  take 3 (Fields line1) = take 3 (Fields line2) →
  parse intSize line1 = parse intSize line2.
Proof.
  unfold parse.
  destruct (Fields line1) as [|c1 [|a1 [|b1 rest1]]],
           (Fields line2) as [|c2 [|a2 [|b2 rest2]]];
    simpl; intros E; by simplify_eq.
Qed.

Lemma parse_reads_three_fields_witness :
  parse 64 "add 2 3 4 5" = parse 64 " add  2 3".
Proof.
  apply (parse_reads_three_fields 64 "add 2 3 4 5" " add  2 3").
  vm_compute. reflexivity.
Defined.

Lemma scriptOf_notStop (intSize : Z) (lines : list string) : ∀ script,
  scriptOf intSize lines = Returns script →
  Forall notStop script ∧ (length script ≤ length lines)%nat.
Proof.
  induction lines as [|line lines IH]; intros script; simpl.
  - intros [= <-]. split; [done | simpl; lia].
  - destruct (parse intSize line) as [cmd|] eqn:Hparse; [|done].
    destruct (scriptOf intSize lines) as [rest|]; [|done].
    intros [= <-]. destruct (IH rest eq_refl) as [Hrest Hlen].
    destruct cmd as [cmd|]; simpl; [|split; [done | lia]].
    split; [|lia]. constructor; [|done].
    unfold parse in Hparse.
    destruct (Fields line) as [|command args]; [done|].
    destruct (String.eqb command "print");
      [destruct args; by simplify_eq|].
    destruct (String.eqb command "add"); [|done].
    destruct args as [|a1 [|a2 args]]; by simplify_eq.
Qed.

(** X16: the commands that [main] posts for its input lines, when no line
    makes [parse] panic, hold no Stop command, and there is at most one for
    every line: an input file cannot stop the loop; only [AwaitFinish]
    does. *)
Theorem input_cannot_stop_the_loop
    (intSize : Z) (lines : list string) (script : list Command) :
  scriptOf intSize lines = Returns script →
  Forall notStop script ∧ (length script ≤ length lines)%nat.
Proof. apply scriptOf_notStop. Qed.

Lemma input_cannot_stop_the_loop_witness :
  Forall notStop demo ∧ (length demo ≤ length demoLines)%nat.
Proof.
  apply (input_cannot_stop_the_loop 64 demoLines demo).
  vm_compute. reflexivity.
Defined.

(** ** The whole run of [main] *)

Lemma Interleave_app_left {A : Type} (x a b l : list A) :
  Interleave a b l → Interleave (x ++ a) b (x ++ l).
Proof. intros H. induction x; simpl; [done | by constructor]. Qed.

Lemma Interleave_app_right {A : Type} (x a b l : list A) :
  Interleave a b l → Interleave a (x ++ b) (x ++ l).
Proof. intros H. induction x; simpl; [done | by constructor]. Qed.

Lemma Interleave_flat_map {A B : Type} (f : A → list B) (a b l : list A) :
  Interleave a b l →
  Interleave (flat_map f a) (flat_map f b) (flat_map f l).
Proof.
  induction 1; simpl; [constructor | |].
  - by apply Interleave_app_left.
  - by apply Interleave_app_right.
Qed.

Lemma workerPosts_silent (intSize : Z) (s : System) :
  Forall (silent intSize) (workerPosts intSize s).
Proof.
  unfold workerPosts. induction (executed s) as [|cmd ex IH]; simpl; [done|].
  apply Forall_app. split; [apply postsOf_silent | done].
Qed.

(** X17: for input lines that [parse] accepts, when [AwaitFinish] has
    returned the output of [main] is made of the texts of the Print lines, in
    the order of the input, shuffled with the sums of the Add lines, in the
    order of the input; every command posted has executed and the queue is
    empty. *)
Theorem main_prints_texts_and_sums
    (intSize : Z) (lines : list string) (script : list Command)
    (schedule : list Thread) :
  scriptOf intSize lines = Returns script →
  driver (run intSize schedule (boot script)) = Returned →
  let s := run intSize schedule (boot script) in
  queue (loop s) = [] ∧
  workerPosts intSize s = flat_map (postsOf intSize) script ∧
  Interleave (flat_map (printsOf intSize) script)
    (flat_map (printsOf intSize) (flat_map (postsOf intSize) script))
    (stdout s).
Proof.
  intros [Hscript _]%scriptOf_notStop Hd s.
  pose proof (Coherent_run intSize script schedule Hscript _
                (Safe_boot script) (Coherent_boot intSize script)) as H.
  assert (Hout : stdout s = flat_map (printsOf intSize) (executed s)).
  { apply (run_invariant intSize
             (λ s, stdout s = flat_map (printsOf intSize) (executed s)));
      [intros; by eapply Output_step | apply Safe_boot | done]. }
  pose proof (workerPosts_silent intSize s) as Hsilent.
  fold s in H, Hd. unfold Coherent in H. rewrite Hd in H.
  destruct H as (_ & Hq & _ & l & Hex & Hshuffle).
  assert (Hposts : workerPosts intSize s = flat_map (postsOf intSize) script).
  { pose proof (Interleave_flat_map (postsOf intSize) _ _ _ Hshuffle) as Hp.
    rewrite (flat_map_silent _ _ Hsilent) in Hp.
    apply Interleave_nil_r_inv in Hp.
    unfold workerPosts at 1. rewrite Hex, flat_map_app. simpl.
    by rewrite app_nil_r. }
  split; [done|]. split; [done|].
  rewrite Hout, Hex, flat_map_app. simpl. rewrite app_nil_r.
  rewrite <- Hposts. by apply Interleave_flat_map.
Qed.

Lemma main_prints_texts_and_sums_witness :
  let s := run 64 driverFirst (boot demo) in
  queue (loop s) = [] ∧
  workerPosts 64 s = flat_map (postsOf 64) demo ∧
  Interleave (flat_map (printsOf 64) demo)
    (flat_map (printsOf 64) (flat_map (postsOf 64) demo))
    (stdout s).
Proof.
  apply (main_prints_texts_and_sums 64 demoLines demo driverFirst).
  - vm_compute. reflexivity.
  - vm_compute. reflexivity.
Defined.

(** ** Printed sums read back *)

Lemma of_uint_acc_ge (d : Decimal.uint) : ∀ acc,
  (acc ≤ Pos.of_uint_acc d acc)%positive.
Proof.
  induction d as [|d IH|d IH|d IH|d IH|d IH|d IH|d IH|d IH|d IH|d IH];
    intros acc; simpl; [lia|..];
    (etrans; [|apply IH]); lia.
Qed.

Lemma parseDigits_acc (maxVal : Z) (d : Decimal.uint) : ∀ acc,
  Z.pos (Pos.of_uint_acc d acc) ≤ maxVal →
  parseDigits maxVal (NilEmpty.string_of_uint d) (Z.pos acc) =
    (Z.pos (Pos.of_uint_acc d acc), None).
Proof.
  induction d as [|d IH|d IH|d IH|d IH|d IH|d IH|d IH|d IH|d IH|d IH];
    intros acc Hmax; [done|..];
    cbn [NilEmpty.string_of_uint parseDigits Pos.of_uint_acc] in *;
    match goal with
    | H : Z.pos (Pos.of_uint_acc d ?acc') ≤ maxVal |- _ =>
        pose proof (of_uint_acc_ge d acc') as Hge;
        change (digit _) with (Some 0) || change (digit _) with (Some 1) ||
        change (digit _) with (Some 2) || change (digit _) with (Some 3) ||
        change (digit _) with (Some 4) || change (digit _) with (Some 5) ||
        change (digit _) with (Some 6) || change (digit _) with (Some 7) ||
        change (digit _) with (Some 8) || change (digit _) with (Some 9);
        cbv iota beta;
        replace (Z.pos acc * 10 + _) with (Z.pos acc') by lia;
        destruct (Z.ltb_spec maxVal (Z.pos acc')); [lia|];
        by apply IH
    end.
Qed.

Lemma parseDigits_of_uint (maxVal : Z) (d : Decimal.uint) :
  0 ≤ maxVal → Z.of_N (Pos.of_uint d) ≤ maxVal →
  parseDigits maxVal (NilEmpty.string_of_uint d) 0 =
    (Z.of_N (Pos.of_uint d), None).
Proof.
  intros H0.
  induction d as [|d IH|d IH|d IH|d IH|d IH|d IH|d IH|d IH|d IH|d IH];
    intros Hmax; [done|..];
    cbn [NilEmpty.string_of_uint parseDigits Pos.of_uint] in *.
  { change (digit _) with (Some 0). cbv iota beta zeta.
    change (0 * 10 + 0) with 0.
    destruct (Z.ltb_spec maxVal 0); [lia|]. by apply IH. }
  all: match goal with
    | H : Z.of_N (N.pos (Pos.of_uint_acc ?d' ?k)) ≤ _ |- _ =>
        pose proof (of_uint_acc_ge d' k) as Hge;
        change (digit _) with (Some (Z.pos k)); cbv iota beta zeta;
        change (0 * 10 + Z.pos k) with (Z.pos k);
        destruct (Z.ltb_spec maxVal (Z.pos k)); [simpl in H; lia|];
        by apply parseDigits_acc
    end.
Qed.

Lemma string_of_uint_head (d : Decimal.uint) :
  d ≠ Decimal.Nil →
  ∃ c s, NilZero.string_of_uint d = String c s ∧
    NilEmpty.string_of_uint d = String c s ∧
    Ascii.eqb c "+" = false ∧ Ascii.eqb c "-" = false.
Proof. destruct d; [done|..]; intros _; eexists _, _; done. Qed.

Lemma Atoi_Itoa (intSize z : Z) :
  0 < intSize → inRange intSize z → Atoi intSize (Itoa z) = (z, None).
Proof.
  intros Hw [Hlo Hhi].
  assert (Hp : 2 ^ intSize = 2 * 2 ^ (intSize - 1)).
  { rewrite <- Z.pow_succ_r by lia. f_equal. lia. }
  assert (0 < 2 ^ (intSize - 1)) by (apply Z.pow_pos_nonneg; lia).
  unfold Itoa. destruct z as [|p|p]; simpl Z.to_int.
  - change (NilZero.string_of_int (Decimal.Pos Decimal.zero)) with "0".
    unfold Atoi, ParseUint. cbv zeta.
    change (Ascii.eqb "0" "+") with false. change (Ascii.eqb "0" "-") with false.
    cbn [orb negb andb parseDigits].
    change (digit "0") with (Some 0). cbv iota beta zeta.
    change (0 * 10 + 0) with 0.
    destruct (Z.ltb_spec (2 ^ intSize - 1) 0); [lia|].
    destruct (Z.leb_spec (2 ^ (intSize - 1)) 0); [lia|]. done.
  - destruct (string_of_uint_head (Pos.to_uint p))
      as (c & s & Hs & Hs' & Hplus & Hminus);
      [apply DecimalPos.Unsigned.to_uint_nonnil|].
    unfold NilZero.string_of_int. rewrite Hs. unfold Atoi. cbv zeta.
    rewrite Hplus, Hminus. simpl orb. cbv iota.
    unfold ParseUint. cbv beta iota. rewrite <- Hs'.
    rewrite parseDigits_of_uint
      by (rewrite ?DecimalPos.Unsigned.of_to; simpl; lia).
    rewrite DecimalPos.Unsigned.of_to. simpl Z.of_N. simpl negb. cbv iota beta.
    simpl andb.
    destruct (Z.leb_spec (2 ^ (intSize - 1)) (Z.pos p)); [lia|]. done.
  - destruct (string_of_uint_head (Pos.to_uint p))
      as (c & s & Hs & Hs' & _);
      [apply DecimalPos.Unsigned.to_uint_nonnil|].
    unfold NilZero.string_of_int. unfold Atoi. cbv zeta.
    change (Ascii.eqb "-" "-") with true. rewrite orb_true_r. cbv iota.
    rewrite Hs. unfold ParseUint. cbv beta iota. rewrite <- Hs'.
    rewrite parseDigits_of_uint
      by (rewrite ?DecimalPos.Unsigned.of_to; simpl; lia).
    rewrite DecimalPos.Unsigned.of_to. simpl Z.of_N. cbv iota beta.
    simpl negb. simpl andb.
    destruct (Z.ltb_spec (2 ^ (intSize - 1)) (Z.pos p)); [lia|]. done.
Qed.

(** X18: the text of the Print command that executing [Add(a, b)] posts is a
    decimal numeral that [Atoi] reads back, without an error, as the sum
    reduced to the bits of an [int]; so is the text [Itoa] gives for any
    value that fits an [int]. *)
Theorem printed_sum_reads_back (intSize a b : Z) :
  0 < intSize →
  (∃ arg, postsOf intSize (addCommand a b) = [printCommand arg] ∧
     Atoi intSize arg = (wrap intSize (a + b), None)) ∧
  (∀ z, inRange intSize z → Atoi intSize (Itoa z) = (z, None)).
Proof.
  intros Hw. split; [|intros z; by apply Atoi_Itoa].
  eexists. split; [reflexivity|].
  apply Atoi_Itoa; [done|]. by apply wrap_range.
Qed.

Lemma printed_sum_reads_back_witness :
  (∃ arg, postsOf 64 (addCommand 9223372036854775807 1) = [printCommand arg] ∧
     Atoi 64 arg = (wrap 64 (9223372036854775807 + 1), None)) ∧
  (∀ z, inRange 64 z → Atoi 64 (Itoa z) = (z, None)).
Proof. apply (printed_sum_reads_back 64 9223372036854775807 1). lia. Defined.

(** ** No deadlock *)

Lemma push_app (a b : commandsQueue) (cmd : Command) :
  b ≠ [] → push (a ++ b) cmd = a ++ push b cmd.
Proof.
  intros Hb. induction a as [|c a IH]; [done|].
  simpl. rewrite push_cons; [by rewrite IH|].
  intros E. apply app_eq_nil in E as [_ ?]. done.
Qed.

Lemma push_behind_stop (ahead behind : commandsQueue) (cmd : Command) :
  push (ahead ++ stopCommand :: behind) cmd =
    if decide (behind = [])
    then (ahead ++ [cmd]) ++ [stopCommand]
    else ahead ++ stopCommand :: push behind cmd.
Proof.
  rewrite push_app by done. destruct (decide (behind = [])) as [->|Hb].
  - by rewrite <- app_assoc.
  - by rewrite push_cons.
Qed.

Lemma first_stop (l : list Command) :
  stopCommand ∈ l →
  ∃ ahead behind, l = ahead ++ stopCommand :: behind ∧ Forall notStop ahead.
Proof.
  induction l as [|c l IH]; [by intros ?%elem_of_nil|].
  destruct (isStop c) eqn:Hc.
  - apply isStop_true in Hc as ->. intros _. by exists [], l.
  - intros [<-|Hin]%elem_of_cons; [done|].
    destruct (IH Hin) as (ahead & behind & -> & Hahead).
    exists (c :: ahead), behind. split; [done|]. by constructor.
Qed.

Lemma Awaited_step (intSize : Z) (t : Thread) (s s' : System) :
  Safe s → Awaited s → step intSize t s = Some s' → Awaited s'.
Proof.
  intros Hsafe H Hstep. unfold Awaited, pending, current in *.
  destruct t; simpl in Hstep.
  - unfold stepDriver in Hstep.
    destruct (driver s) as [[|cmd rest]| |] eqn:Hd; simplify_eq.
    + simpl. intros _. right.
      apply elem_of_app. right. rewrite push_Permutation.
      apply elem_of_app. right. by apply list_elem_of_singleton.
    + done.
    + by apply handover_inv in Hstep as (_ & _ & ->).
  - apply stepWorker_inv in Hstep
      as [[Hw ->]|[[Hw ->]|[(cmd & rest & Hw & Hq & ->)|[(cmd & Hw & ->)|Hh]]]];
      try done; simpl; rewrite ?Hw in H; simpl in H.
    + intros Hd. destruct (H Hd) as [?|?]; [by left|right].
      by destruct (isStopped (loop s)).
    + intros Hd. destruct (H Hd) as [?|?]; [by left|right].
      by destruct (decide (length (queue (loop s)) = 0%nat)).
    + intros Hd. destruct (H Hd) as [?|Hin]; [by left|right].
      by rewrite Hq in Hin.
    + intros Hd. rewrite Execute_isStopped.
      destruct (H Hd) as [->|Hin]; [left; by rewrite orb_true_r|].
      destruct (isStop cmd) eqn:Hcmd; [by left|right].
      apply elem_of_cons in Hin as [<-|Hin]; [done|].
      rewrite Execute_queue. apply elem_of_app. by left.
    + by apply handover_inv in Hh as (_ & _ & ->).
Qed.

Lemma DrainingTo_step (intSize : Z) (s : System) (ahead behind : list Command) :
  DrainingTo s ahead behind →
  ∃ s', stepWorker intSize s = Some s' ∧
    ((∃ ahead' behind', DrainingTo s' ahead' behind' ∧
        (workLeft intSize s' ahead' < workLeft intSize s ahead)%nat) ∨
     (driver s' = AtReceive ∧ isStopped (loop s') = true ∧
      worker s' = AtLoopTest)).
Proof.
  intros (Hd & Hstopped & Hrun & Hpending & Hahead).
  unfold stepWorker, workLeft, DrainingTo, pending, current in *.
  destruct (worker s) as [| | |cmd| | |] eqn:Hw; try done; simpl in Hpending.
  - eexists. split; [done|]. left. exists ahead, behind. simpl.
    rewrite Hstopped. simpl. split; [done | lia].
  - eexists. split; [done|]. left. exists ahead, behind. simpl.
    rewrite Hpending, length_app. simpl.
    destruct (decide _) as [E|_]; [lia|]. simpl. split; [done | lia].
  - rewrite Hpending.
    destruct ahead as [|cmd ahead]; simpl;
      (eexists; split; [done|]); left.
    + exists [], behind. simpl. split; [done | lia].
    + exists (cmd :: ahead), behind. simpl. split; [done | lia].
  - destruct ahead as [|c ahead]; simpl in Hpending;
      injection Hpending as Hc Hq; subst cmd.
    + simpl. eexists. split; [done|]. right. simpl. done.
    + apply Forall_cons in Hahead as [Hcmd Hahead].
      destruct c as [|arg|arg1 arg2]; [by apply notStop_stop in Hcmd| |];
        simpl; (eexists; split; [done|]); left.
      * exists ahead, behind. simpl. split; [done|]. unfold weight. simpl. lia.
      * simpl. rewrite Hq, push_behind_stop.
        destruct (decide (behind = [])) as [->|Hb].
        -- exists (ahead ++ [printCommand (Itoa (wrap intSize (arg1 + arg2)))]), [].
           split.
           ++ repeat split; try done.
              apply Forall_app. split; [done|]. by repeat constructor.
           ++ unfold weight. rewrite flat_map_app, !length_app. simpl. lia.
        -- exists ahead, (push behind (printCommand (Itoa (wrap intSize (arg1 + arg2))))).
           split; [done|]. unfold weight. simpl. lia.
Qed.

Lemma DrainingTo_returns (intSize : Z) (n : nat) : ∀ s ahead behind,
  DrainingTo s ahead behind → (workLeft intSize s ahead ≤ n)%nat →
  driver (run intSize (replicate (3 + n) Worker) s) = Returned.
Proof.
  induction n as [|n IH]; intros s ahead behind Hs Hn;
    destruct (DrainingTo_step intSize s ahead behind Hs)
      as (s' & Hstep & [(ahead' & behind' & Hs' & Hless) | (Hd & Hstopped & Hw)]);
    simpl; rewrite Hstep; simpl.
  - lia.
  - apply (stopped_worker_returns intSize s' 0); auto.
  - apply (IH s' ahead' behind'); [done | lia].
  - apply (stopped_worker_returns intSize s' (S n)); auto.
Qed.

(** X19: [AwaitFinish] never deadlocks: for every script, also one that
    holds Stop commands, and after every schedule, the driver can finish its
    posts and the worker can run on until [AwaitFinish] returns. *)
Theorem await_finish_never_deadlocks
    (intSize : Z) (script : list Command) (schedule : list Thread) :
  ∃ more,
    driver (run intSize (schedule ++ more) (boot script)) = Returned.
Proof.
  assert (Hinv : ∀ sched, let s := run intSize sched (boot script) in
            Safe s ∧ Halting s ∧ Signalled s ∧ Awaited s).
  { intros sched s. split; [apply Safe_run, Safe_boot|].
    repeat split.
    - apply (run_invariant intSize Halting);
        [apply Halting_step | apply Safe_boot | by split].
    - by apply (run_invariant intSize Signalled);
        [apply Signalled_step | apply Safe_boot | split].
    - by apply (run_invariant intSize Signalled);
        [apply Signalled_step | apply Safe_boot | split].
    - by apply (run_invariant intSize Signalled);
        [apply Signalled_step | apply Safe_boot | split].
    - by apply (run_invariant intSize Awaited);
        [apply Awaited_step | apply Safe_boot | ]. }
  assert (Hreceive : ∀ sched,
            driver (run intSize sched (boot script)) = AtReceive →
            ∃ more, driver (run intSize (sched ++ more) (boot script)) = Returned).
  { intros sched Hd.
    destruct (Hinv sched) as (Hsafe & Hhalt & [_ Hdone] & Hawait).
    set (s := run intSize sched (boot script)) in *.
    unfold Halting in Hhalt. unfold Awaited in Hawait.
    destruct (isStopped (loop s)) eqn:Hstopped.
    - destruct Hhalt as [_ Hw]. exists (replicate 2 Worker).
      rewrite run_app. apply (stopped_worker_returns intSize s 0); [done..|].
      destruct Hw as [?|[?|Hw]]; auto.
      apply Hdone in Hw. congruence.
    - destruct Hhalt as [_ Hrun].
      destruct (Hawait Hd) as [?|Hin]; [done|].
      apply first_stop in Hin as (ahead & behind & Hpending & Hahead).
      eexists. rewrite run_app.
      by eapply (DrainingTo_returns intSize _ s ahead behind). }
  destruct (driver (run intSize schedule (boot script))) as [rest| |] eqn:Hd.
  - destruct (Hreceive (schedule ++ replicate (S (length rest)) Driver))
      as [more Hmore].
    + rewrite run_app. by apply driver_posts_all.
    + exists (replicate (S (length rest)) Driver ++ more).
      by rewrite app_assoc.
  - by apply Hreceive.
  - exists []. by rewrite app_nil_r.
Qed.
